(** * ufile: path and text-file helpers of mark-summerfield/ufile (Go)

    A shallow embedding of [ufile.go] and the properties its specification
    states about it.

    Go strings and byte slices are sequences of bytes: they are lists of
    [ascii] here (an [ascii] is one 8-bit byte).  Go's [int] indices are [Z],
    so that the [-1] of the [LastIndex] family is the code's own [-1].
    What the code asks of its platform ([runtime.GOOS], [os.PathSeparator]),
    of the file system and of the [bufio] package is explicit state. *)

From Equations Require Import Equations.
From Stdlib Require Import Ascii String.
From Stdlib Require Import List ZArith Lia Bool.
Import ListNotations.

Set Implicit Arguments.

(** The value of an expression together with the equation that names it. *)
Definition inspect {A : Type} (a : A) : {b : A | a = b} := exist _ a eq_refl.

(** ** Go strings *)

Definition bytes := list ascii.

(** A string literal of the source. *)
Definition go (s : String.string) : bytes := list_ascii_of_string s.

Definition LF : ascii := ascii_of_nat 10.   (* '\n' *)
Definition CR : ascii := ascii_of_nat 13.   (* '\r' *)

Definition bytes_eqb (a b : bytes) : bool :=
  if list_eq_dec ascii_dec a b then true else false.

(** [len(s)] *)
Definition len (s : bytes) : Z := Z.of_nat (length s).

(** [s[i:]] and [s[:i]], for an index the code has obtained from a search in
    [s] (Go panics on an index out of range; no caller here produces one). *)
Definition slice_from (s : bytes) (i : Z) : bytes := skipn (Z.to_nat i) s.
Definition slice_to (s : bytes) (i : Z) : bytes := firstn (Z.to_nat i) s.

(** The scan behind [strings.LastIndexByte] and [strings.LastIndexAny]:
    [i] is the index of the head of [s], [found] the last match so far. *)
Fixpoint lastIndexFrom (p : ascii -> bool) (s : bytes) (i found : Z) : Z :=
  match s with
  | [] => found
  | c :: s' => lastIndexFrom p s' (i + 1) (if p c then i else found)
  end.

(** [strings.LastIndexByte(s, c)]: index of the last [c] in [s], or [-1]. *)
Definition LastIndexByte (s : bytes) (c : ascii) : Z :=
  lastIndexFrom (Ascii.eqb c) s 0 (-1).

(** [strings.LastIndexAny(s, chars)] for a set [chars] of ASCII characters:
    index of the last byte of [s] that is one of [chars], or [-1]. *)
Definition LastIndexAny (s : bytes) (chars : bytes) : Z :=
  lastIndexFrom (fun c => existsb (Ascii.eqb c) chars) s 0 (-1).

Lemma lastIndexFrom_bounds p s i found :
  (found < i)%Z ->
  (found <= lastIndexFrom p s i found < i + len s)%Z.
Proof.
  unfold len. revert i found.
  induction s as [|c s IH]; intros i found H; simpl lastIndexFrom.
  - simpl. lia.
  - specialize (IH (i + 1)%Z (if p c then i else found)).
    replace (Z.of_nat (length (c :: s))) with (1 + Z.of_nat (length s))%Z
      by (simpl length; lia).
    destruct (p c); lia.
Qed.

Lemma LastIndexByte_bounds s c : (-1 <= LastIndexByte s c < len s)%Z.
Proof.
  unfold LastIndexByte.
  pose proof (@lastIndexFrom_bounds (Ascii.eqb c) s 0 (-1)) as H. lia.
Qed.

(** ** Barename *)

(** The loop of [Barename]:
    [for { if i := strings.LastIndexByte(path, '.'); i > -1 { path = path[:i] }
           else { break } }]. *)
Equations? stripSuffixes (path : bytes) : bytes by wf (length path) lt :=
  stripSuffixes path with inspect (-1 <? LastIndexByte path ".")%Z => {
    | exist _ true Hlt := stripSuffixes (slice_to path (LastIndexByte path "."));
    | exist _ false _ := path }.
Proof.
  pose proof (LastIndexByte_bounds path "."%char) as Hb. unfold len in Hb.
  apply Z.ltb_lt in Hlt. unfold slice_to.
  rewrite length_firstn. lia.
Qed.

(** The first statement of [Barename]:
    [if i := strings.LastIndexAny(path, `/\`); i > -1 { path = path[i+1:] }]. *)
Definition stripDir (path : bytes) : bytes :=
  let i := LastIndexAny path (go "/\") in
  if (-1 <? i)%Z then slice_from path (i + 1) else path.

Definition Barename (path : bytes) : bytes := stripSuffixes (stripDir path).


(** ** The target platform *)

(** [runtime.GOOS] is the name of the target operating system.  The
    functions below take it as their first argument [goos]. *)
Definition isGOOS (goos : bytes) (name : String.string) : bool :=
  bytes_eqb goos (go name).

(** [os.PathSeparator]: ['\'] on Windows, ['/'] on every other target. *)
Definition PathSeparator (goos : bytes) : ascii :=
  if isGOOS goos "windows" then "\"%char else "/"%char.

(** [strings.ToLower] on the ASCII letters; a byte outside ['A'..'Z'] is
    kept as it is (Go's Unicode case tables are outside this model). *)
Definition toLowerByte (c : ascii) : ascii :=
  let n := nat_of_ascii c in
  if (65 <=? n)%nat && (n <=? 90)%nat then ascii_of_nat (n + 32) else c.

Definition ToLower (s : bytes) : bytes := map toLowerByte s.

(** ** LongestCommonPath *)

(** The longest common prefix of two strings, byte by byte. *)
Fixpoint commonPrefix (a b : bytes) : bytes :=
  match a, b with
  | x :: a', y :: b' => if Ascii.eqb x y then x :: commonPrefix a' b' else []
  | _, _ => []
  end.

(** Modelled from the spec: [utext.LongestCommonPrefix], a function of the
    package github.com/mark-summerfield/utext whose source is not part of
    this repository.  The spec calls it the generic longest-common-prefix
    string primitive and has it compute the raw longest common prefix,
    character-wise, across all inputs. *)
Definition LongestCommonPrefix (items : list bytes) : bytes :=
  match items with
  | [] => []
  | first :: rest => fold_left commonPrefix rest first
  end.

(** [runtime.GOOS == "windows" || runtime.GOOS == "darwin"] *)
Definition caseInsensitive (goos : bytes) : bool :=
  isGOOS goos "windows" || isGOOS goos "darwin".

(** The strings the prefix is computed over: the loop
    [for i := range len(paths) { paths[i] = strings.ToLower(paths[i]) }]
    on a case-insensitive target, the paths themselves elsewhere.  (The Go
    loop overwrites the caller's slice; only the value is kept here.) *)
Definition foldCase (goos : bytes) (paths : list bytes) : list bytes :=
  if caseInsensitive goos then map ToLower paths else paths.

Definition LongestCommonPath (goos : bytes) (paths : list bytes) : bytes :=
  match paths with
  | [] => []
  | [p] => if caseInsensitive goos then ToLower p else p
  | _ =>
      let prefix := LongestCommonPrefix (foldCase goos paths) in
      if (1 <? len prefix)%Z then
        let i := LastIndexByte prefix (PathSeparator goos) in
        if (i =? -1)%Z then []          (* no path separator to slice to *)
        else
          let i := if (i =? 0)%Z then 1%Z else i in  (* preserve root *)
          slice_to prefix i
      else prefix
  end.

(** ** Vocabulary of the properties *)

(** One of the two directory separators [Barename] looks for. *)
Definition isSep (c : ascii) : bool := existsb (Ascii.eqb c) (go "/\").

Definition noSep (s : bytes) : Prop := Forall (fun c => isSep c = false) s.
Definition noDot (s : bytes) : Prop :=
  Forall (fun c => Ascii.eqb "." c = false) s.

(** A directory part: nothing, or a string whose last byte is a separator. *)
Definition dirPrefix (dir : bytes) : Prop :=
  dir = [] \/ exists d c, dir = d ++ [c] /\ isSep c = true.

(** ** Errors, files and the file system *)

(** Go's [error] values: the two sentinels the code and [bufio] compare
    with, and the errors of system calls ([*fs.PathError] with its errno). *)
Inductive error : Set :=
| io_EOF
| io_ErrShortWrite
| PathError (errno : nat)
| errors_New (text : String.string).

Definition ENOENT : nat := 2.
Definition EIO : nat := 5.
Definition ENOSPC : nat := 28.

(** A Go [error] result is [nil] ([None]) or an error. *)
Definition isNil (err : option error) : bool :=
  match err with None => true | Some _ => false end.

(** [err == io.EOF] *)
Definition isEOF (err : option error) : bool :=
  match err with Some io_EOF => true | _ => false end.

(** [err != nil && err != io.EOF] *)
Definition isFailure (err : option error) : bool :=
  negb (isNil err) && negb (isEOF err).

Inductive result (A : Type) : Type :=
| Ok (a : A)
| Err (e : error).
Arguments Ok {A} a.
Arguments Err {A} e.

(** A regular file: the bytes it holds, what a read meets after the last
    of them ([io_EOF] on a sound file, an I/O error on a failing medium),
    and how many more bytes the device accepts before a write fails. *)
Record File : Type := mkFile {
  data : bytes;
  tail : error;
  room : nat
}.

(** The file system as [os.Open] and [os.Create] see it: [node] is what
    opening a name finds, [creat] is what creating (or truncating) it
    answers, an error or the room of the empty file. *)
Record FS : Type := mkFS {
  node : bytes -> result File;
  creat : bytes -> result nat
}.

Definition os_Open (fs : FS) (name : bytes) : result File := node fs name.

Definition os_Create (fs : FS) (name : bytes) : result File :=
  match creat fs name with
  | Ok r => Ok {| data := []; tail := io_EOF; room := r |}
  | Err e => Err e
  end.

(** [file.Close()] of a file that was created under [name]: the file system
    holds what was written to it. *)
Definition File_Close (fs : FS) (name : bytes) (f : File) : FS :=
  {| node := fun n => if bytes_eqb n name then Ok f else node fs n;
     creat := creat fs |}.

(** [file.Write(p)] / [file.WriteString(s)]: the bytes that fit are stored;
    when some do not, the count of those stored comes with an error. *)
Definition File_Write (f : File) (p : bytes) : File * nat * option error :=
  if (length p <=? room f)%nat
  then ({| data := data f ++ p; tail := tail f;
           room := room f - length p |}, length p, None)
  else ({| data := data f ++ firstn (room f) p; tail := tail f;
           room := 0 |}, room f, Some (PathError ENOSPC)).

(** [os.ReadFile(name)]: the whole content, or the bytes read so far with
    the error that stopped the read. *)
Definition os_ReadFile (fs : FS) (name : bytes) : bytes * option error :=
  match os_Open fs name with
  | Err e => ([], Some e)
  | Ok f => (data f, if isEOF (Some (tail f)) then None else Some (tail f))
  end.

(** ** The byte-string functions used on file contents *)

(** [bytes.ReplaceAll(s, []byte{old}, new)] for a one-byte pattern. *)
Definition ReplaceAll (s : bytes) (old : ascii) (new : bytes) : bytes :=
  flat_map (fun c => if Ascii.eqb c old then new else [c]) s.

Definition inSet (c : ascii) (cutset : bytes) : bool :=
  existsb (Ascii.eqb c) cutset.

(** [strings.TrimRight(s, cutset)] and [bytes.TrimRight] for a cutset of
    ASCII characters: every trailing byte that is in the cutset is removed. *)
Fixpoint TrimRight (s : bytes) (cutset : bytes) : bytes :=
  match s with
  | [] => []
  | c :: s' =>
      match TrimRight s' cutset with
      | [] => if inSet c cutset then [] else [c]
      | t => c :: t
      end
  end.

(** [strings.Split(s, string(sep))] for a one-byte separator: the
    [Count(s, sep) + 1] pieces between the separators. *)
Fixpoint Split (s : bytes) (sep : ascii) : list bytes :=
  match s with
  | [] => [[]]
  | c :: s' =>
      if Ascii.eqb c sep then [] :: Split s' sep
      else match Split s' sep with
           | piece :: pieces => (c :: piece) :: pieces
           | [] => [[c]]
           end
  end.

(** [strings.HasPrefix(s, prefix)] *)
Fixpoint HasPrefix (s prefix : bytes) : bool :=
  match prefix, s with
  | [], _ => true
  | p :: prefix', c :: s' => Ascii.eqb c p && HasPrefix s' prefix'
  | _ :: _, [] => false
  end.

(** ** ReadTextFile *)

Definition ReadTextFile (fs : FS) (filename : bytes)
  : list bytes * option error :=
  let (raw, err) := os_ReadFile fs filename in
  match err with
  | Some e => ([], Some e)
  | None =>
      let raw := ReplaceAll raw CR [] in
      let raw := TrimRight raw [LF] in
      (Split raw LF, None)
  end.

(** ** ReadUtf8Lines *)

(** A [bufio.Reader] over an open file: the bytes not yet consumed and what
    the file reports after them. *)
Record Reader : Type := mkReader {
  pending : bytes;
  rend : error
}.

Definition bufio_NewReader (f : File) : Reader :=
  {| pending := data f; rend := tail f |}.

(** The bytes up to and including the first [delim], and the rest. *)
Fixpoint cutAt (delim : ascii) (s : bytes) : option (bytes * bytes) :=
  match s with
  | [] => None
  | c :: s' =>
      if Ascii.eqb c delim then Some ([c], s')
      else match cutAt delim s' with
           | Some (line, rest) => Some (c :: line, rest)
           | None => None
           end
  end.

(** [reader.ReadString(delim)]: the bytes up to and including the
    delimiter; if the input ends before a delimiter, the bytes read so far
    together with the error met ([io_EOF] or an I/O error). *)
Definition ReadString (r : Reader) (delim : ascii)
  : bytes * option error * Reader :=
  match cutAt delim (pending r) with
  | Some (line, rest) => (line, None, {| pending := rest; rend := rend r |})
  | None => (pending r, Some (rend r), {| pending := []; rend := rend r |})
  end.

Lemma cutAt_length delim s line rest :
  cutAt delim s = Some (line, rest) -> (length rest < length s)%nat.
Proof.
  revert line rest. induction s as [|c s IH]; intros line rest; simpl.
  - discriminate.
  - destruct (Ascii.eqb c delim).
    + intros [= <- <-]. lia.
    + destruct (cutAt delim s) as [[l r]|]; [|discriminate].
      intros [= <- <-]. specialize (IH l r eq_refl). lia.
Qed.

(** What one turn of the loop of [ReadUtf8Lines] leaves. *)
Inductive turn (S : Type) : Type :=
| Return (st : S)                    (* [return], or [break] out of the loop *)
| Again (r : Reader) (st : S).       (* the next iteration *)
Arguments Return {S} st.
Arguments Again {S} r st.

Section Iterator.
(** The consumer of the [iter.Seq2]: [yield(line, err)] acts on the
    consumer's state and answers whether the iteration goes on. *)
Variable S : Type.
Variable yield : bytes -> option error -> S -> S * bool.

(** The body of the loop:
    [line, err := reader.ReadString('\n')]
    [if err != nil && err != io.EOF { yield("", err); return }]
    [if line == "" && err == io.EOF { break }]
    [if !yield(strings.TrimRight(line, "\r\n"), nil) { return }]
    [if err == io.EOF { break }] *)
Definition readTurn (r : Reader) (st : S) : turn S :=
  let '(line, err, r') := ReadString r LF in
  if isFailure err then Return (fst (yield [] err st))
  else if bytes_eqb line [] && isEOF err then Return st
  else
    let (st', more) := yield (TrimRight line [CR; LF]) None st in
    if negb more then Return st'
    else if isEOF err then Return st'
    else Again r' st'.

Lemma readTurn_Again r st r' st' :
  readTurn r st = Again r' st' ->
  (length (pending r') < length (pending r))%nat.
Proof.
  unfold readTurn, ReadString.
  destruct (cutAt LF (pending r)) as [[line rest]|] eqn:E.
  - simpl. destruct (yield _ _ _) as [s1 more].
    destruct (bytes_eqb line []); simpl; destruct more; simpl;
      try discriminate; intros [= <- _]; simpl;
      eapply cutAt_length; eassumption.
  - destruct (isFailure (Some (rend r))) eqn:F; [discriminate|].
    assert (Heof : isEOF (Some (rend r)) = true)
      by (destruct (rend r); try reflexivity; discriminate).
    rewrite Heof.
    destruct (bytes_eqb (pending r) []); simpl; [discriminate|].
    destruct (yield _ _ _) as [s1 more]. destruct more; discriminate.
Qed.

(** [for { ... }] *)
Equations? readLoop (r : Reader) (st : S) : S
  by wf (length (pending r)) lt :=
  readLoop r st with inspect (readTurn r st) => {
    | exist _ (Return st') _ := st';
    | exist _ (Again r' st') H := readLoop r' st' }.
Proof. eapply readTurn_Again; eassumption. Qed.

(** [ReadUtf8Lines(filename)] applied to [yield]; the deferred
    [file.Close()] changes nothing a reader sees. *)
Definition ReadUtf8Lines (fs : FS) (filename : bytes) (st : S) : S :=
  match os_Open fs filename with
  | Err e => fst (yield [] (Some e) st)   (* failed to open file *)
  | Ok file => readLoop (bufio_NewReader file) st
  end.
End Iterator.

(** The consumer [for line, err := range ReadUtf8Lines(f) { ... }] that
    never breaks: it records every pair it is given. *)
Definition record (line : bytes) (err : option error)
  (seen : list (bytes * option error)) : list (bytes * option error) * bool :=
  (seen ++ [(line, err)], true).

Definition yielded (fs : FS) (filename : bytes) : list (bytes * option error) :=
  ReadUtf8Lines record fs filename [].

(** Any consumer, with a record of the pairs it was given. *)
Definition traced (S : Type) (yield : bytes -> option error -> S -> S * bool)
  (line : bytes) (err : option error)
  (st : S * list (bytes * option error))
  : (S * list (bytes * option error)) * bool :=
  let (st', more) := yield line err (fst st) in
  ((st', snd st ++ [(line, err)]), more).

(** ** bufio.Writer *)

(** [bufio.NewWriter] gives a buffer of [defaultBufSize] bytes. *)
Definition defaultBufSize : nat := 4096.

(** A [bufio.Writer]: [buf] is [b.buf[0:b.n]], the bytes accepted and not
    yet handed to the file; [werr] is the sticky [b.err]; [wr] the file. *)
Record Writer : Type := mkWriter {
  buf : bytes;
  werr : option error;
  wr : File
}.

Definition bufio_NewWriter (f : File) : Writer :=
  {| buf := []; werr := None; wr := f |}.

Definition Buffered (b : Writer) : nat := length (buf b).
Definition Available (b : Writer) : nat := defaultBufSize - length (buf b).

(** [b.Flush()]: the buffered bytes are written to the file; a short write
    without an error is [io.ErrShortWrite]; on an error the bytes not
    written stay in the buffer and the error sticks. *)
Definition Flush (b : Writer) : Writer * option error :=
  match werr b with
  | Some e => (b, Some e)
  | None =>
      if (Buffered b =? 0)%nat then (b, None)
      else
        let '(f, n, err) := File_Write (wr b) (buf b) in
        let err := if (n <? Buffered b)%nat && isNil err
                   then Some io_ErrShortWrite else err in
        match err with
        | Some e => ({| buf := skipn n (buf b); werr := Some e; wr := f |},
                     Some e)
        | None => ({| buf := []; werr := None; wr := f |}, None)
        end
  end.

(** One turn of the loop of [b.WriteString(s)], entered while
    [len(s) > b.Available() && b.err == nil]: with an empty buffer the
    string goes to the file's own [WriteString]; otherwise the buffer is
    filled from [s] and flushed.  The result is the writer and the count
    [n] of bytes of [s] consumed. *)
Definition writeTurn (b : Writer) (s : bytes) : Writer * nat :=
  if (Buffered b =? 0)%nat then
    let '(f, n, err) := File_Write (wr b) s in
    ({| buf := buf b; werr := err; wr := f |}, n)
  else
    let n := Nat.min (Available b) (length s) in
    (fst (Flush {| buf := buf b ++ firstn n s; werr := werr b; wr := wr b |}),
     n).

Definition writeMore (b : Writer) (s : bytes) : bool :=
  (Available b <? length s)%nat && isNil (werr b).

(** What is left to do before the loop of [WriteString] ends. *)
Definition writeMeasure (b : Writer) (s : bytes) : nat :=
  match werr b with
  | Some _ => 0
  | None => 2 * length s + (if (Buffered b =? 0)%nat then 1 else 2)
  end.

Lemma defaultBufSize_pos : (0 < defaultBufSize)%nat.
Proof. unfold defaultBufSize. lia. Qed.

Lemma writeTurn_decreases b s :
  writeMore b s = true ->
  (writeMeasure (fst (writeTurn b s)) (skipn (snd (writeTurn b s)) s)
   < writeMeasure b s)%nat.
Proof.
  unfold writeMore, writeTurn, writeMeasure, Flush, File_Write, Available,
    Buffered.
  pose proof defaultBufSize_pos as Hpos. revert Hpos.
  generalize defaultBufSize as N. intros N Hpos.
  destruct b as [bf [e|] f]; cbn [buf werr wr isNil];
    [rewrite andb_false_r; discriminate|].
  rewrite andb_true_r. intros H. apply Nat.ltb_lt in H.
  destruct bf as [|c bf]; cbn [length Nat.eqb app].
  - cbn [length] in H. destruct (length s <=? room f)%nat; cbn [fst snd werr buf].
    + rewrite skipn_all. cbn [length Nat.eqb]. lia.
    + lia.
  - cbn [length] in H.
    set (n := Nat.min (N - S (length bf)) (length s)).
    assert (Hn : n = (N - S (length bf))%nat) by (unfold n; lia).
    assert (Hl : length (bf ++ firstn n s) = (length bf + n)%nat)
      by (rewrite length_app, length_firstn; lia).
    destruct (S (length (bf ++ firstn n s)) <=? room f)%nat;
      cbn [fst snd werr buf isNil andb].
    + rewrite Nat.ltb_irrefl. cbn [fst snd werr buf isNil andb length Nat.eqb].
      rewrite length_skipn. lia.
    + destruct (room f <? _)%nat; cbn [fst snd werr buf isNil andb]; lia.
Qed.

(** The loop of [b.WriteString(s)]; [nn] counts the bytes consumed. *)
Equations? writeLoop (b : Writer) (s : bytes) (nn : nat) : Writer * bytes * nat
  by wf (writeMeasure b s) lt :=
  writeLoop b s nn with inspect (writeMore b s) => {
    | exist _ true H :=
        writeLoop (fst (writeTurn b s)) (skipn (snd (writeTurn b s)) s)
                  (nn + snd (writeTurn b s));
    | exist _ false _ := (b, s, nn) }.
Proof. now apply writeTurn_decreases. Qed.

(** [b.WriteString(s)]: after the loop, a stuck error is returned;
    otherwise the rest of [s] is copied into the buffer. *)
Definition WriteString (b : Writer) (s : bytes) : Writer * nat * option error :=
  let '(b1, s1, nn) := writeLoop b s 0 in
  match werr b1 with
  | Some e => (b1, nn, Some e)
  | None =>
      let n := Nat.min (Available b1) (length s1) in
      ({| buf := buf b1 ++ firstn n s1; werr := werr b1; wr := wr b1 |},
       nn + n, None)
  end.

(** ** WriteTextFile *)

(** [for _, line := range lines { ... }], with its two early returns. *)
Fixpoint writeLines (out : Writer) (eol : bytes) (lines : list bytes)
  : Writer * option error :=
  match lines with
  | [] => (out, None)
  | line :: rest =>
      let '(out1, _, err) := WriteString out line in
      match err with
      | Some e => (out1, Some e)
      | None =>
          let '(out2, _, err) := WriteString out1 eol in
          match err with
          | Some e => (out2, Some e)
          | None => writeLines out2 eol rest
          end
      end
  end.

(** [eol := "\n"; if runtime.GOOS == "windows" { eol = "\r\n" }] *)
Definition EOL (goos : bytes) : bytes :=
  if isGOOS goos "windows" then [CR; LF] else [LF].

(** [WriteTextFile]: the file system after the call, and the error result.
    The deferred [file.Close()] runs on every return after the file has
    been created; the result of [out.Flush()] is not looked at. *)
Definition WriteTextFile (goos : bytes) (fs : FS) (filename : bytes)
  (lines : list bytes) : FS * option error :=
  match os_Create fs filename with
  | Err e => (fs, Some e)
  | Ok file =>
      let out := bufio_NewWriter file in
      match writeLines out (EOL goos) lines with
      | (out, Some e) => (File_Close fs filename (wr out), Some e)
      | (out, None) =>
          let (out, _) := Flush out in
          (File_Close fs filename (wr out), None)
      end
  end.

(** ** FileExists and GetConfigFile *)

(** What [os.Stat] tells of a path. *)
Record FileInfo : Type := mkFileInfo { IsDir : bool }.

(** The environment of [GetConfigFile]: the answers of
    [os.UserConfigDir()], [os.UserHomeDir()] and [os.Stat(path)]. *)
Record Env : Type := mkEnv {
  UserConfigDir : result bytes;
  UserHomeDir : result bytes;
  Stat : bytes -> result FileInfo
}.

(** [FileExists]: [os.Stat] succeeds and the path is not a directory. *)
Definition FileExists (env : Env) (path : bytes) : bool :=
  match Stat env path with
  | Ok stat => negb (IsDir stat)
  | Err _ => false
  end.

(** [s == ""] and [s != ""] *)
Definition isEmpty (s : bytes) : bool :=
  match s with [] => true | _ :: _ => false end.
Definition nonEmpty (s : bytes) : bool := negb (isEmpty s).

(** [ext] with the leading dot the code gives it. *)
Definition dotted (ext : bytes) : bytes :=
  if HasPrefix ext (go ".") then ext else go "." ++ ext.

Section ConfigFile.
(** [filepath.Join] of the target, a function of the Go library. *)
Variable Join : list bytes -> bytes.
Variable env : Env.

Definition GetConfigFile (domain appname ext : bytes) : bytes * bool :=
  let ext := dotted ext in
  let filename := appname ++ ext in
  let filenames : list bytes := [] in
  let preferred : bytes := [] in
  let fallback : bytes := [] in
  let '(filenames, preferred) :=
    match UserConfigDir env with
    | Ok configDir =>
        let '(filenames, preferred) :=
          if nonEmpty domain then
            let preferred := Join [configDir; domain; filename] in
            (filenames ++ [preferred], preferred)
          else (filenames, preferred) in
        let name := Join [configDir; filename] in
        let filenames := filenames ++ [name] in
        (filenames, if isEmpty preferred then name else preferred)
    | Err _ => (filenames, preferred)
    end in
  let '(filenames, fallback) :=
    match UserHomeDir env with
    | Ok homeDir =>
        let '(filenames, fallback) :=
          if nonEmpty domain then
            let fallback :=
              Join [homeDir; go "." ++ domain ++ go "-" ++ filename] in
            (filenames ++ [fallback], fallback)
          else (filenames, fallback) in
        let name := Join [homeDir; go "." ++ filename] in
        let filenames := filenames ++ [name] in
        (filenames, if isEmpty fallback then name else fallback)
    | Err _ => (filenames, fallback)
    end in
  let filenames :=
    if (length filenames =? 0)%nat then  (* if all else fails try current dir *)
      let filenames :=
        if nonEmpty domain
        then filenames ++ [domain ++ go "-" ++ filename] else filenames in
      let filenames := filenames ++ [filename] in
      let filenames :=
        if nonEmpty domain
        then filenames ++ [go "." ++ domain ++ go "-" ++ filename]
        else filenames in
      filenames ++ [go "." ++ filename]
    else filenames in
  match find (FileExists env) filenames with
  | Some filename => (filename, true)  (* found *)
  | None =>
      if nonEmpty preferred then (preferred, false)
      else if nonEmpty fallback then (fallback, false)
      else if nonEmpty domain then (domain ++ go "-" ++ filename, false)
      else (filename, false)
  end.

(** [GetIniFile] *)
Definition GetIniFile (domain appname : bytes) : bytes * bool :=
  GetConfigFile domain appname (go ".ini").

(** The candidates in the order of the specification: under the config
    dir, [domain/name] (with a domain) then [name]; under the home dir,
    [.domain-name] (with a domain) then [.name]; each group only when its
    directory is resolved; and relative to the current directory when
    neither is. *)
Definition configCandidates (configDir domain filename : bytes) : list bytes :=
  (if nonEmpty domain then [Join [configDir; domain; filename]] else [])
  ++ [Join [configDir; filename]].

Definition homeCandidates (homeDir domain filename : bytes) : list bytes :=
  (if nonEmpty domain
   then [Join [homeDir; go "." ++ domain ++ go "-" ++ filename]] else [])
  ++ [Join [homeDir; go "." ++ filename]].

Definition cwdCandidates (domain filename : bytes) : list bytes :=
  (if nonEmpty domain then [domain ++ go "-" ++ filename] else [])
  ++ [filename]
  ++ (if nonEmpty domain then [go "." ++ domain ++ go "-" ++ filename]
      else [])
  ++ [go "." ++ filename].

Definition candidates (domain filename : bytes) : list bytes :=
  match UserConfigDir env, UserHomeDir env with
  | Ok configDir, Ok homeDir =>
      configCandidates configDir domain filename
      ++ homeCandidates homeDir domain filename
  | Ok configDir, Err _ => configCandidates configDir domain filename
  | Err _, Ok homeDir => homeCandidates homeDir domain filename
  | Err _, Err _ => cwdCandidates domain filename
  end.
End ConfigFile.

(** [filepath.Join] never gives the empty string when one of its elements
    is not empty (it joins the non-empty elements and cleans the result,
    and [Clean] gives "." rather than ""). *)
Definition JoinNonEmpty (Join : list bytes -> bytes) : Prop :=
  forall elems, existsb nonEmpty elems = true -> Join elems <> [].

(** The elements that are not empty, with the separator between them:
    [filepath.Join] on elements that are clean already. *)
Fixpoint joinWith (sep : ascii) (elems : list bytes) : bytes :=
  match elems with
  | [] => []
  | e :: rest =>
      if isEmpty e then joinWith sep rest
      else match joinWith sep rest with
           | [] => e
           | tl => e ++ sep :: tl
           end
  end.

(** ** Vocabulary of the properties of text files *)

(** [strings.Join(lines, string(sep))] *)
Fixpoint joinLines (sep : ascii) (lines : list bytes) : bytes :=
  match lines with
  | [] => []
  | [line] => line
  | line :: rest => line ++ sep :: joinLines sep rest
  end.

(** The string holds no byte [c]. *)
Definition without (c : ascii) (s : bytes) : Prop :=
  Forall (fun x => Ascii.eqb x c = false) s.

(** A sound regular file with the given content. *)
Definition textFile (content : bytes) : File :=
  {| data := content; tail := io_EOF; room := 0 |}.

(** A file system that holds one file. *)
Definition oneFile (name : bytes) (f : File) : FS :=
  {| node := fun n => if bytes_eqb n name then Ok f
                      else Err (PathError ENOENT);
     creat := fun _ => Err (PathError ENOSPC) |}.

(** What the specification says [ReadTextFile] does to a string: a single
    trailing newline is stripped, if there is one. *)
Definition stripOneNewline (s : bytes) : bytes :=
  match rev s with
  | c :: r => if Ascii.eqb c LF then rev r else s
  | [] => s
  end.

(** The lines of a content in the words of the specification: remove every
    carriage return, strip a single trailing newline, split on newline. *)
Definition linesBySpec (content : bytes) : list bytes :=
  Split (stripOneNewline (ReplaceAll content CR [])) LF.

(** The pairs an iteration has yielded observe the error protocol: pairs
    without error, then at most one pair with an error, whose string is
    empty. *)
Definition errorLast (new : list (bytes * option error)) : Prop :=
  exists lines fin,
    new = lines ++ fin
    /\ Forall (fun p => snd p = None) lines
    /\ (fin = [] \/ exists e, fin = [([], Some e)]).

(** A line of text: it holds no newline and no carriage return. *)
Definition plain (line : bytes) : Prop := without LF line /\ without CR line.

(** A line terminator of a text file: "\n" or "\r\n". *)
Definition isEOL (t : bytes) : Prop := t = [LF] \/ t = [CR; LF].

(** The content made of lines, each followed by its own terminator. *)
Definition text (body : list (bytes * bytes)) : bytes :=
  concat (map (fun p => fst p ++ snd p) body).

(** The same with "\n" after every line. *)
Definition unixText (lines : list bytes) : bytes :=
  concat (map (fun line => line ++ [LF]) lines).

(** ** Vocabulary of the properties of the writer *)

(** A writer in good order: no stuck error, a sound file under it, and no
    more bytes buffered than the buffer holds. *)
Definition sound (b : Writer) : Prop :=
  werr b = None /\ tail (wr b) = io_EOF
  /\ (length (buf b) <= defaultBufSize)%nat.

(** All the bytes a writer has accepted: those in the file, then those in
    the buffer. *)
Definition accepted (b : Writer) : bytes := data (wr b) ++ buf b.

(** How many bytes the file under the writer can hold in all. *)
Definition capacity (b : Writer) : nat := room (wr b) + length (data (wr b)).

(** What [WriteTextFile] is to write. *)
Definition written (goos : bytes) (lines : list bytes) : bytes :=
  concat (map (fun line => line ++ EOL goos) lines).

(** A file system without files, where a file can be created with room
    for [r] bytes. *)
Definition emptyDisk (r : nat) : FS :=
  {| node := fun _ => Err (PathError ENOENT);
     creat := fun _ => Ok r |}.

(** ** Environments and files of the examples *)

(** An environment whose config dir is not resolved (a relative
    [$XDG_CONFIG_HOME], say), whose home dir is, and where no file exists. *)
Definition homeOnlyEnv : Env :=
  {| UserConfigDir := Err (errors_New "path in $XDG_CONFIG_HOME is relative");
     UserHomeDir := Ok (go "/home/mark");
     Stat := fun _ => Err (PathError ENOENT) |}.

(** A file exists at config-dir/name only. *)
Definition someEnv : Env :=
  {| UserConfigDir := Ok (go "/home/mark/.config");
     UserHomeDir := Ok (go "/home/mark");
     Stat := fun p =>
       if bytes_eqb p (go "/home/mark/.config/myapp.ini")
       then Ok {| IsDir := false |} else Err (PathError ENOENT) |}.

(** A medium that fails after the first line. *)
Definition failingFile : File :=
  {| data := go "a" ++ [LF] ++ go "b"; tail := PathError EIO; room := 0 |}.

(** ** Further vocabulary *)

(** The bytes of [s] before its first byte [c] (all of [s] without one). *)
Fixpoint untilByte (c : ascii) (s : bytes) : bytes :=
  match s with
  | [] => []
  | x :: s' => if Ascii.eqb x c then [] else x :: untilByte c s'
  end.

(** [a] is a prefix of [b]. *)
Definition prefixOf (a b : bytes) : Prop := exists rest, b = a ++ rest.

(** ** PathExists and IsDir *)

(** The two other probes of the package, under their own names ([IsDir] of
    a [FileInfo] is the field above). *)
Module ufile.

(** [PathExists]: [os.Stat] succeeds. *)
Definition PathExists (env : Env) (path : bytes) : bool :=
  match Stat env path with
  | Ok _ => true
  | Err _ => false
  end.

(** [IsDir]: [os.Stat] succeeds and the path is a directory. *)
Definition IsDir (env : Env) (name : bytes) : bool :=
  match Stat env name with
  | Err _ => false
  | Ok info => IsDir info
  end.

End ufile.

(** The consumer that breaks out of the loop once it has [n] pairs:
    [for line, err := range ReadUtf8Lines(f) {
       seen = append(seen, pair{line, err}); if len(seen) >= n { break } }]. *)
Definition upTo (n : nat) (line : bytes) (err : option error)
  (seen : list (bytes * option error)) : list (bytes * option error) * bool :=
  (seen ++ [(line, err)], (S (length seen) <? n)%nat).

(** A writer whose file has taken all it could: an error is stuck, the file
    is full at [r] bytes, which are the first bytes of [all], and [all] did
    not fit. *)
Definition stuck (b : Writer) (all : bytes) (r : nat) : Prop :=
  werr b <> None /\ length (data (wr b)) = r
  /\ prefixOf (data (wr b)) all /\ (r < length all)%nat.

(** A writer without error that has accepted [all], on a file of capacity
    [r]. *)
Definition holding (b : Writer) (all : bytes) (r : nat) : Prop :=
  werr b = None /\ accepted b = all /\ capacity b = r.

(** An environment where [/home/mark] is a directory and nothing else
    exists. *)
Definition dirEnv : Env :=
  {| UserConfigDir := Ok (go "/home/mark/.config");
     UserHomeDir := Ok (go "/home/mark");
     Stat := fun p =>
       if bytes_eqb p (go "/home/mark")
       then Ok {| IsDir := true |} else Err (PathError ENOENT) |}.
(** ** Facts about the string primitives *)

Lemma lastIndexFrom_app p a b i found :
  lastIndexFrom p (a ++ b) i found =
  lastIndexFrom p b (i + len a) (lastIndexFrom p a i found).
Proof.
  unfold len. revert i found.
  induction a as [|c a IH]; intros i found; simpl.
  - f_equal. lia.
  - rewrite IH. f_equal. lia.
Qed.

Lemma lastIndexFrom_none p s i found :
  Forall (fun c => p c = false) s -> lastIndexFrom p s i found = found.
Proof.
  intros H. revert i found.
  induction H as [|c s Hc _ IH]; intros i found; simpl; [reflexivity|].
  rewrite Hc. apply IH.
Qed.

Lemma lastIndexFrom_last p a c b :
  p c = true -> Forall (fun x => p x = false) b ->
  lastIndexFrom p (a ++ c :: b) 0 (-1) = len a.
Proof.
  intros Hc Hb. rewrite lastIndexFrom_app. simpl.
  rewrite Hc, lastIndexFrom_none by assumption. lia.
Qed.

Lemma stripSuffixes_step path :
  stripSuffixes path =
  if (-1 <? LastIndexByte path ".")%Z
  then stripSuffixes (slice_to path (LastIndexByte path "."))
  else path.
Proof.
  funelim (stripSuffixes path);
    match goal with E : (_ <? _)%Z = _ |- _ => rewrite E end; reflexivity.
Qed.

Lemma LastIndexByte_none s c :
  Forall (fun x => Ascii.eqb c x = false) s -> LastIndexByte s c = (-1)%Z.
Proof. intros H. unfold LastIndexByte. now apply lastIndexFrom_none. Qed.

Lemma LastIndexByte_last a c b :
  Forall (fun x => Ascii.eqb c x = false) b ->
  LastIndexByte (a ++ c :: b) c = len a.
Proof.
  intros H. unfold LastIndexByte. apply lastIndexFrom_last; [|assumption].
  apply Ascii.eqb_refl.
Qed.

Lemma slice_to_app a b : slice_to (a ++ b) (len a) = a.
Proof.
  unfold slice_to, len. rewrite Nat2Z.id, firstn_app, Nat.sub_diag.
  simpl. rewrite firstn_all. apply app_nil_r.
Qed.

Lemma slice_from_app a c b : slice_from (a ++ c :: b) (len a + 1) = b.
Proof.
  unfold slice_from, len.
  replace (Z.to_nat (Z.of_nat (length a) + 1)) with (length (a ++ [c]))
    by (rewrite length_app; simpl; lia).
  replace (a ++ c :: b) with ((a ++ [c]) ++ b)
    by (rewrite <- app_assoc; reflexivity).
  rewrite skipn_app, skipn_all, Nat.sub_diag. reflexivity.
Qed.

Lemma len_nonneg s : (0 <= len s)%Z.
Proof. unfold len. lia. Qed.

(** *** Barename, step by step *)

Lemma stripDir_app dir base :
  dirPrefix dir -> noSep base -> stripDir (dir ++ base) = base.
Proof.
  intros [->|(d & c & -> & Hc)] Hb; unfold stripDir, LastIndexAny.
  - simpl app. rewrite lastIndexFrom_none by exact Hb. reflexivity.
  - rewrite <- app_assoc. simpl app.
    rewrite lastIndexFrom_last by (exact Hc || exact Hb).
    pose proof (len_nonneg d) as Hd.
    replace (-1 <? len d)%Z with true by (symmetry; apply Z.ltb_lt; lia).
    apply slice_from_app.
Qed.

Lemma stripDir_noSep s : noSep s -> stripDir s = s.
Proof. intros H. apply (@stripDir_app [] s); [now left | exact H]. Qed.

Lemma stripSuffixes_noDot s : noDot s -> stripSuffixes s = s.
Proof.
  intros H. rewrite stripSuffixes_step, LastIndexByte_none by exact H.
  reflexivity.
Qed.

Lemma stripSuffixes_dot stem tok :
  noDot tok -> stripSuffixes (stem ++ "."%char :: tok) = stripSuffixes stem.
Proof.
  intros H. rewrite stripSuffixes_step, LastIndexByte_last by exact H.
  pose proof (len_nonneg stem) as Hs.
  replace (-1 <? len stem)%Z with true by (symmetry; apply Z.ltb_lt; lia).
  now rewrite slice_to_app.
Qed.

Lemma noSep_app a b : noSep (a ++ b) <-> noSep a /\ noSep b.
Proof. apply Forall_app. Qed.

Lemma lastIndexFrom_absent p s i found :
  (-1 <= found < i)%Z -> (lastIndexFrom p s i found <= -1)%Z ->
  Forall (fun c => p c = false) s.
Proof.
  revert i found.
  induction s as [|c s IH]; intros i found Hf Hr; constructor;
    cbn [lastIndexFrom] in Hr.
  - destruct (p c) eqn:E; [|reflexivity].
    pose proof (@lastIndexFrom_bounds p s (i + 1) i) as Hb. lia.
  - apply (IH (i + 1)%Z (if p c then i else found));
      [destruct (p c); lia | exact Hr].
Qed.

Lemma LastIndexByte_neg_noDot s :
  (-1 <? LastIndexByte s ".")%Z = false -> noDot s.
Proof.
  unfold LastIndexByte, noDot. intros H. apply Z.ltb_ge in H.
  apply (@lastIndexFrom_absent _ s 0%Z (-1)%Z); lia.
Qed.

Lemma stripSuffixes_result_noDot path : noDot (stripSuffixes path).
Proof.
  funelim (stripSuffixes path).
  - assumption.
  - apply LastIndexByte_neg_noDot. assumption.
Qed.

(** Every string is free of the bytes a test picks out, or is cut in two
    by the last of them. *)
Lemma split_at_last (p : ascii -> bool) (s : bytes) :
  Forall (fun c => p c = false) s
  \/ exists a c b, s = a ++ c :: b /\ p c = true
                   /\ Forall (fun x => p x = false) b.
Proof.
  induction s as [|x s [IH|(a & c & b & -> & Hc & Hb)]].
  - left. constructor.
  - destruct (p x) eqn:E.
    + right. exists [], x, s. now repeat split.
    + left. constructor; assumption.
  - right. exists (x :: a), c, b. now repeat split.
Qed.

(** Every path is a directory part followed by a base name. *)
Lemma path_dir_base path :
  exists dir base, path = dir ++ base /\ dirPrefix dir /\ noSep base.
Proof.
  destruct (split_at_last isSep path) as [H|(a & c & b & -> & Hc & Hb)].
  - exists [], path. repeat split; [now left | exact H].
  - exists (a ++ [c]), b. rewrite <- app_assoc. repeat split; [|exact Hb].
    right. now exists a, c.
Qed.

(** *** LongestCommonPath *)

(** With two or more paths the result is computed from the raw prefix. *)
Lemma LongestCommonPath_many goos p q rest :
  LongestCommonPath goos (p :: q :: rest) =
  let prefix := LongestCommonPrefix (foldCase goos (p :: q :: rest)) in
  if (1 <? len prefix)%Z then
    let i := LastIndexByte prefix (PathSeparator goos) in
    if (i =? -1)%Z then []
    else slice_to prefix (if (i =? 0)%Z then 1%Z else i)
  else prefix.
Proof. reflexivity. Qed.

(** A raw prefix of at most one byte is returned as it is: the separator
    search is guarded by [len(prefix) > 1]. *)
Lemma LongestCommonPath_guard_keeps_short_prefix goos paths :
  (2 <= length paths)%nat ->
  (len (LongestCommonPrefix (foldCase goos paths)) <= 1)%Z ->
  LongestCommonPath goos paths = LongestCommonPrefix (foldCase goos paths).
Proof.
  intros Hn Hl. destruct paths as [|p [|q rest]]; simpl in Hn; try lia.
  rewrite LongestCommonPath_many. cbv zeta.
  replace (1 <? len _)%Z with false by (symmetry; apply Z.ltb_ge; exact Hl).
  reflexivity.
Qed.

(** *** GetConfigFile *)

Lemma dotted_nonEmpty ext : nonEmpty (dotted ext) = true.
Proof.
  unfold dotted. destruct ext as [|c ext]; [reflexivity|].
  destruct (HasPrefix (c :: ext) (go ".")); reflexivity.
Qed.

Lemma filename_nonEmpty appname ext : nonEmpty (appname ++ dotted ext) = true.
Proof.
  pose proof (dotted_nonEmpty ext) as H.
  destruct appname; [exact H | reflexivity].
Qed.

Lemma isEmpty_false s : s <> [] -> isEmpty s = false.
Proof. destruct s; [congruence | reflexivity]. Qed.

(** [find] gives the first element that satisfies the test. *)
Lemma find_first (A : Type) (f : A -> bool) (l before after : list A) (x : A) :
  l = before ++ x :: after -> f x = true ->
  Forall (fun y => f y = false) before ->
  find f l = Some x.
Proof.
  intros -> Hx Hb. induction Hb as [|y before Hy _ IH]; simpl.
  - now rewrite Hx.
  - now rewrite Hy.
Qed.

Lemma find_none (A : Type) (f : A -> bool) (l : list A) :
  Forall (fun y => f y = false) l -> find f l = None.
Proof.
  intros H. induction H as [|y l Hy _ IH]; simpl; [reflexivity|].
  now rewrite Hy.
Qed.

(** The list the code builds is the list of candidates, and what it
    returns when none exists is the head of that list. *)
Lemma GetConfigFile_find Join env domain appname ext :
  JoinNonEmpty Join ->
  GetConfigFile Join env domain appname ext =
  match find (FileExists env)
          (candidates Join env domain (appname ++ dotted ext)) with
  | Some p => (p, true)
  | None => (hd [] (candidates Join env domain (appname ++ dotted ext)), false)
  end.
Proof.
  intros HJ.
  pose proof (filename_nonEmpty appname ext) as Hf.
  assert (HJ' : forall d x, isEmpty (Join [d; x; appname ++ dotted ext]) = false).
  { intros d x. apply isEmpty_false, HJ. simpl. rewrite Hf.
    now rewrite !orb_true_r. }
  assert (HJ2 : forall d, isEmpty (Join [d; appname ++ dotted ext]) = false).
  { intros d. apply isEmpty_false, HJ. simpl. rewrite Hf.
    now rewrite !orb_true_r. }
  assert (HJ3 : forall d x, isEmpty (Join [d; go "." ++ x]) = false).
  { intros d x. apply isEmpty_false, HJ. simpl. now rewrite !orb_true_r. }
  unfold GetConfigFile, candidates, configCandidates, homeCandidates,
    cwdCandidates.
  destruct (UserConfigDir env) as [cd|e1], (UserHomeDir env) as [home|e2],
    (nonEmpty domain) eqn:Hd;
    cbn [app length Nat.eqb hd isEmpty nonEmpty negb];
    unfold nonEmpty;
    rewrite ?HJ', ?HJ2, ?HJ3; cbn [negb isEmpty];
    reflexivity.
Qed.

(** *** Split, TrimRight and ReplaceAll *)

Lemma Split_not_nil s sep : Split s sep <> [].
Proof.
  destruct s as [|c s]; simpl; [discriminate|].
  destruct (Ascii.eqb c sep); [discriminate|].
  destruct (Split s sep); discriminate.
Qed.

Lemma Split_without s sep : without sep s -> Split s sep = [s].
Proof.
  intros H. induction H as [|c s Hc _ IH]; simpl; [reflexivity|].
  now rewrite Hc, IH.
Qed.

Lemma Split_app a b sep :
  Split (a ++ sep :: b) sep = Split a sep ++ Split b sep.
Proof.
  induction a as [|c a IH]; simpl.
  - now rewrite Ascii.eqb_refl.
  - destruct (Ascii.eqb c sep); [now rewrite IH|].
    rewrite IH. pose proof (Split_not_nil a sep) as Hn.
    destruct (Split a sep); [contradiction | reflexivity].
Qed.

Lemma Split_joinLines lines sep :
  lines <> [] -> Forall (without sep) lines ->
  Split (joinLines sep lines) sep = lines.
Proof.
  intros Hne H. induction H as [|l rest Hl Hrest IH]; [contradiction|].
  destruct rest as [|l2 rest].
  - simpl. now apply Split_without.
  - change (joinLines sep (l :: l2 :: rest))
      with (l ++ sep :: joinLines sep (l2 :: rest)).
    rewrite Split_app, IH by discriminate.
    now rewrite (Split_without Hl).
Qed.

Lemma joinLines_Split s sep : joinLines sep (Split s sep) = s.
Proof.
  induction s as [|c s IH]; [reflexivity|].
  pose proof (Split_not_nil s sep) as Hn. simpl Split.
  destruct (Ascii.eqb c sep) eqn:E.
  - apply Ascii.eqb_eq in E. subst c.
    destruct (Split s sep) as [|p ps]; [contradiction|].
    change (joinLines sep ([] :: p :: ps)) with (sep :: joinLines sep (p :: ps)).
    now rewrite IH.
  - destruct (Split s sep) as [|p ps]; [contradiction|].
    rewrite <- IH. destruct ps; reflexivity.
Qed.

Lemma Split_Forall (P : ascii -> Prop) s sep :
  Forall P s -> Forall (Forall P) (Split s sep).
Proof.
  intros H. induction H as [|c s Hc _ IH]; simpl.
  - repeat constructor.
  - destruct (Ascii.eqb c sep).
    + constructor; [constructor | exact IH].
    + destruct (Split s sep) as [|p ps]; [repeat constructor; exact Hc|].
      inversion IH; subst. constructor; [constructor|]; assumption.
Qed.

Lemma Split_pieces_without s sep : Forall (without sep) (Split s sep).
Proof.
  induction s as [|c s IH]; simpl.
  - repeat constructor.
  - destruct (Ascii.eqb c sep) eqn:E.
    + constructor; [constructor | exact IH].
    + destruct (Split s sep) as [|p ps]; [repeat constructor; exact E|].
      inversion IH; subst. constructor; [constructor|]; assumption.
Qed.

(** The last piece of a string that ends with another byte than the
    separator is not empty. *)
Lemma Split_last_nonempty s c sep :
  Ascii.eqb c sep = false -> last (Split (s ++ [c]) sep) [] <> [].
Proof.
  intros Hc. induction s as [|x s IH]; simpl.
  - rewrite Hc. simpl. discriminate.
  - pose proof (Split_not_nil (s ++ [c]) sep) as Hn.
    destruct (Ascii.eqb x sep).
    + destruct (Split (s ++ [c]) sep); [contradiction | exact IH].
    + destruct (Split (s ++ [c]) sep) as [|p ps]; [contradiction|].
      destruct ps; [discriminate | exact IH].
Qed.

Lemma TrimRight_Forall (P : ascii -> Prop) s cutset :
  Forall P s -> Forall P (TrimRight s cutset).
Proof.
  intros H. induction H as [|c s Hc _ IH]; simpl; [constructor|].
  destruct (TrimRight s cutset).
  - destruct (inSet c cutset); repeat constructor; exact Hc.
  - constructor; assumption.
Qed.

Lemma TrimRight_app a b cutset :
  TrimRight (a ++ b) cutset =
  if isEmpty (TrimRight b cutset) then TrimRight a cutset
  else a ++ TrimRight b cutset.
Proof.
  induction a as [|c a IH]; simpl.
  - destruct (TrimRight b cutset); reflexivity.
  - rewrite IH. destruct (TrimRight b cutset) as [|y t]; simpl; [reflexivity|].
    destruct (a ++ y :: t) eqn:E; [|reflexivity].
    destruct a; discriminate.
Qed.

Lemma TrimRight_snoc s c cutset :
  inSet c cutset = false -> TrimRight (s ++ [c]) cutset = s ++ [c].
Proof.
  intros Hc. rewrite TrimRight_app. simpl. now rewrite Hc.
Qed.

(** What [TrimRight] leaves is empty or ends outside the cutset, and what
    it removes is in the cutset. *)
Lemma TrimRight_spec s cutset :
  exists t, s = TrimRight s cutset ++ t
            /\ Forall (fun c => inSet c cutset = true) t
            /\ (TrimRight s cutset = []
                \/ exists s' c, TrimRight s cutset = s' ++ [c]
                                /\ inSet c cutset = false).
Proof.
  induction s as [|c s (t & Hs & Ht & Hl)]; simpl.
  - exists []. repeat split; [constructor | now left].
  - destruct (TrimRight s cutset) as [|y r] eqn:E.
    + destruct (inSet c cutset) eqn:Hc.
      * exists (c :: t). simpl in Hs. subst s.
        repeat split; [constructor; assumption | now left].
      * exists t. simpl in Hs. subst s. repeat split; [assumption|].
        right. exists [], c. now split.
    + exists t. split; [simpl; now rewrite Hs at 1|]. split; [assumption|].
      right. destruct Hl as [Hl|(s' & z & Hl & Hz)]; [discriminate|].
      exists (c :: s'), z. rewrite Hl. now split.
Qed.

Lemma ReplaceAll_app a b old new :
  ReplaceAll (a ++ b) old new = ReplaceAll a old new ++ ReplaceAll b old new.
Proof. apply flat_map_app. Qed.

Lemma ReplaceAll_without s old :
  without old s -> ReplaceAll s old [] = s.
Proof.
  intros H. induction H as [|c s Hc _ IH]; simpl; [reflexivity|].
  rewrite Hc. simpl. f_equal. exact IH.
Qed.

Lemma ReplaceAll_removes s old : without old (ReplaceAll s old []).
Proof.
  induction s as [|c s IH]; simpl; [constructor|].
  destruct (Ascii.eqb c old) eqn:E; simpl; [exact IH|].
  constructor; assumption.
Qed.

(** *** ReadTextFile *)

Lemma ReadTextFile_ok fs filename f :
  os_Open fs filename = Ok f -> tail f = io_EOF ->
  ReadTextFile fs filename =
  (Split (TrimRight (ReplaceAll (data f) CR []) [LF]) LF, None).
Proof.
  intros Ho Ht. unfold ReadTextFile, os_ReadFile. rewrite Ho, Ht. reflexivity.
Qed.

Lemma inSet_LF c : inSet c [LF] = true <-> c = LF.
Proof.
  unfold inSet. simpl. rewrite orb_false_r. apply Ascii.eqb_eq.
Qed.

Lemma without_snoc c s x : without c (s ++ [x]) -> Ascii.eqb x c = false.
Proof.
  intros H. apply Forall_app in H. destruct H as [_ H]. now inversion H.
Qed.

(** A content that ends in the middle of a line: its last line is that
    partial line. *)
Lemma Split_partial_last before partial :
  (before = [] \/ exists b, before = b ++ [LF]) ->
  partial <> [] -> without LF partial -> without CR partial ->
  TrimRight (ReplaceAll (before ++ partial) CR []) [LF]
  = ReplaceAll before CR [] ++ partial
  /\ last (Split (ReplaceAll before CR [] ++ partial) LF) [] = partial.
Proof.
  intros Hb Hne Hlf Hcr.
  rewrite ReplaceAll_app, (ReplaceAll_without Hcr).
  destruct (exists_last Hne) as (p & c & ->).
  pose proof (@without_snoc _ _ _ Hlf) as Hc.
  split.
  - rewrite app_assoc. apply TrimRight_snoc.
    unfold inSet. simpl. now rewrite Hc.
  - destruct Hb as [->|(b & ->)].
    + simpl. now rewrite (Split_without Hlf).
    + rewrite ReplaceAll_app. simpl. rewrite <- app_assoc. simpl.
      rewrite Split_app, (Split_without Hlf). apply last_last.
Qed.

(** *** The loop of ReadUtf8Lines *)

Lemma readLoop_step (S : Type) (yield : bytes -> option error -> S -> S * bool)
  r st :
  readLoop yield r st =
  match readTurn yield r st with
  | Return st' => st'
  | Again r' st' => readLoop yield r' st'
  end.
Proof.
  funelim (readLoop yield r st);
    match goal with E : readTurn _ _ _ = _ |- _ => rewrite E end; reflexivity.
Qed.

Lemma cutAt_Some delim s line rest :
  cutAt delim s = Some (line, rest) ->
  exists body, line = body ++ [delim] /\ s = line ++ rest
               /\ without delim body.
Proof.
  revert line rest. induction s as [|c s IH]; intros line rest; simpl.
  - discriminate.
  - destruct (Ascii.eqb c delim) eqn:E.
    + intros [= <- <-]. apply Ascii.eqb_eq in E. subst c.
      exists []. repeat split. constructor.
    + destruct (cutAt delim s) as [[l r]|]; [|discriminate].
      intros [= <- <-]. destruct (IH l r eq_refl) as (body & -> & -> & Hb).
      exists (c :: body). repeat split. constructor; assumption.
Qed.

Lemma cutAt_None delim s : cutAt delim s = None <-> without delim s.
Proof.
  induction s as [|c s IH]; simpl.
  - split; [constructor | reflexivity].
  - destruct (Ascii.eqb c delim) eqn:E.
    + split; [discriminate|]. intros H. inversion H; subst. congruence.
    + destruct (cutAt delim s) as [[l r]|].
      * split; [discriminate|]. intros H. inversion H; subst.
        assert (X : Some (l, r) = None) by now apply IH. discriminate X.
      * split; [|reflexivity]. intros _. constructor; [exact E|].
        now apply IH.
Qed.

Lemma cutAt_line delim body rest :
  without delim body ->
  cutAt delim (body ++ delim :: rest) = Some (body ++ [delim], rest).
Proof.
  intros H. induction H as [|c body Hc _ IH]; simpl.
  - now rewrite Ascii.eqb_refl.
  - now rewrite Hc, IH.
Qed.

(** One turn with a traced consumer adds at most one pair: a line without
    error, or the error pair, after which the loop is left. *)
Lemma readTurn_traced (S : Type)
  (yield : bytes -> option error -> S -> S * bool) r st tr :
  match readTurn (traced yield) r (st, tr) with
  | Return (_, tr') =>
      tr' = tr \/ (exists l, tr' = tr ++ [(l, None)])
      \/ (exists e, tr' = tr ++ [([], Some e)])
  | Again _ (_, tr') => exists l, tr' = tr ++ [(l, None)]
  end.
Proof.
  unfold readTurn, traced.
  destruct (ReadString r LF) as [[line err] r'].
  destruct (isFailure err) eqn:F.
  - cbn [fst snd]. destruct (yield [] err st) as [s1 m]. cbn [fst snd].
    destruct err as [e|]; [|discriminate]. right. right. now exists e.
  - destruct (bytes_eqb line [] && isEOF err); [now left|].
    cbn [fst snd]. destruct (yield _ None st) as [s1 m].
    destruct m; cbn [negb]; [destruct (isEOF err)|]; eauto.
Qed.

Lemma errorLast_cons l new : errorLast new -> errorLast ((l, None) :: new).
Proof.
  intros (lines & fin & -> & Hl & Hf).
  exists ((l, None) :: lines), fin. split; [reflexivity|].
  split; [constructor; [reflexivity | exact Hl] | exact Hf].
Qed.

Lemma readLoop_traced_errorLast (S : Type)
  (yield : bytes -> option error -> S -> S * bool) n :
  forall r st tr, (length (pending r) < n)%nat ->
    exists new, snd (readLoop (traced yield) r (st, tr)) = tr ++ new
                /\ errorLast new.
Proof.
  induction n as [|n IH]; intros r st tr Hn; [lia|].
  rewrite readLoop_step.
  pose proof (readTurn_traced yield r st tr) as Ht.
  destruct (readTurn (traced yield) r (st, tr)) as [[s1 tr1]|r1 [s1 tr1]] eqn:E.
  - cbn [snd]. destruct Ht as [->|[(l & ->)|(e & ->)]].
    + exists []. split; [now rewrite app_nil_r|].
      exists [], []. repeat split; [constructor | now left].
    + exists [(l, None)]. split; [reflexivity|].
      exists [(l, None)], []. repeat split; [repeat constructor | now left].
    + exists [([], Some e)]. split; [reflexivity|].
      exists [], [([], Some e)]. repeat split; [constructor|]. right. now exists e.
  - destruct Ht as (l & ->). apply readTurn_Again in E.
    destruct (IH r1 s1 (tr ++ [(l, None)])) as (new & Hnew & Hp); [lia|].
    exists ((l, None) :: new). split.
    + rewrite Hnew, <- app_assoc. reflexivity.
    + now apply errorLast_cons.
Qed.

(** In a trace that observes the protocol, a pair with an error has the
    empty string and nothing after it. *)
Lemma errorLast_inv new before line e after :
  errorLast new -> new = before ++ (line, Some e) :: after ->
  line = [] /\ after = [].
Proof.
  intros (lines & fin & -> & Hl & Hf). revert before.
  induction Hl as [|p lines Hp _ IH]; intros before Heq.
  - simpl in Heq. destruct Hf as [->|(e' & ->)].
    + destruct before; discriminate.
    + destruct before as [|b before].
      * simpl in Heq. injection Heq as <- <- <-. now split.
      * simpl in Heq. injection Heq as _ Heq. destruct before; discriminate.
  - destruct before as [|b before]; simpl in Heq.
    + injection Heq as Hx _. subst p. discriminate.
    + injection Heq as _ Heq. now apply (IH before).
Qed.

(** A read that fails: the error pair is yielded and the loop is left,
    whatever the consumer answers. *)
Lemma readLoop_failure (S : Type)
  (yield : bytes -> option error -> S -> S * bool) r st line err r' :
  ReadString r LF = (line, err, r') -> isFailure err = true ->
  readLoop yield r st = fst (yield [] err st).
Proof.
  intros Hr Hf. rewrite readLoop_step. unfold readTurn. now rewrite Hr, Hf.
Qed.

(** On a file whose reads end with an I/O error, a consumer that never
    stops is given the lines read before it and then the error pair. *)
Lemma readLoop_failing_file (S : Type)
  (yield : bytes -> option error -> S -> S * bool) n :
  (forall l e s, snd (yield l e s) = true) ->
  forall r st tr, (length (pending r) < n)%nat ->
    isFailure (Some (rend r)) = true ->
    exists before,
      Forall (fun p => snd p = None) before
      /\ snd (readLoop (traced yield) r (st, tr))
         = tr ++ before ++ [([], Some (rend r))].
Proof.
  intros Hy. induction n as [|n IH]; intros r st tr Hn Hf; [lia|].
  rewrite readLoop_step. unfold readTurn, ReadString.
  destruct (cutAt LF (pending r)) as [[line rest]|] eqn:E.
  - pose proof (cutAt_length _ _ E) as Hlen.
    destruct (cutAt_Some _ _ E) as (body & -> & _ & _).
    replace (bytes_eqb (body ++ [LF]) []) with false
      by (destruct body; reflexivity).
    cbn [isFailure isNil isEOF negb andb]. unfold traced at 1.
    cbn [fst snd]. specialize (Hy (TrimRight (body ++ [LF]) [CR; LF]) None st).
    destruct (yield _ None st) as [s1 m]. cbn [snd] in Hy. subst m.
    cbn [negb].
    destruct (IH {| pending := rest; rend := rend r |} s1
                (tr ++ [(TrimRight (body ++ [LF]) [CR; LF], None)]))
      as (before & Hb & Heq); [simpl; lia | exact Hf |].
    exists ((TrimRight (body ++ [LF]) [CR; LF], None) :: before).
    split; [constructor; [reflexivity | exact Hb]|].
    cbn [rend] in Heq. rewrite Heq, <- app_assoc. reflexivity.
  - rewrite Hf. unfold traced. cbn [fst snd].
    destruct (yield [] (Some (rend r)) st) as [s1 m]. cbn [fst snd].
    exists []. split; [constructor | reflexivity].
Qed.

(** *** Text made of terminated lines *)

Lemma TrimRight_outside s cutset :
  Forall (fun c => inSet c cutset = false) s -> TrimRight s cutset = s.
Proof.
  intros H. induction H as [|c s Hc _ IH]; simpl; [reflexivity|].
  rewrite IH. destruct s; [now rewrite Hc | reflexivity].
Qed.

Lemma plain_outside l : plain l -> Forall (fun c => inSet c [CR; LF] = false) l.
Proof.
  intros [Hlf Hcr]. unfold without in *. rewrite Forall_forall in *.
  intros c Hin. unfold inSet. simpl.
  now rewrite (Hlf c Hin), (Hcr c Hin).
Qed.

Lemma TrimRight_line l t :
  plain l -> isEOL t \/ t = [] -> TrimRight (l ++ t) [CR; LF] = l.
Proof.
  intros Hl Ht. rewrite TrimRight_app.
  replace (TrimRight t [CR; LF]) with (@nil ascii)
    by (destruct Ht as [[->| ->]| ->]; reflexivity).
  simpl. apply TrimRight_outside. now apply plain_outside.
Qed.

Lemma cutAt_text_line l t rest :
  plain l -> isEOL t -> cutAt LF (l ++ t ++ rest) = Some (l ++ t, rest).
Proof.
  intros [Hlf Hcr] [->| ->].
  - simpl. now apply cutAt_line.
  - change (l ++ [CR; LF] ++ rest) with (l ++ [CR] ++ LF :: rest).
    rewrite app_assoc.
    replace (l ++ [CR; LF]) with ((l ++ [CR]) ++ [LF])
      by (rewrite <- app_assoc; reflexivity).
    apply cutAt_line. apply Forall_app. split; [exact Hlf|].
    repeat constructor.
Qed.

(** A terminated line is yielded without its terminator, and the loop goes
    on with the rest. *)
Lemma readLoop_record_line l t rest e seen :
  plain l -> isEOL t ->
  readLoop record {| pending := l ++ t ++ rest; rend := e |} seen
  = readLoop record {| pending := rest; rend := e |} (seen ++ [(l, None)]).
Proof.
  intros Hl Ht. rewrite readLoop_step. unfold readTurn at 1, ReadString.
  cbn [pending rend]. rewrite (cutAt_text_line rest Hl Ht).
  cbn [isFailure isNil isEOF negb andb].
  replace (bytes_eqb (l ++ t) []) with false
    by (destruct Ht as [->| ->]; destruct l; reflexivity).
  cbn [andb]. rewrite (TrimRight_line Hl (or_introl Ht)). reflexivity.
Qed.

(** At the end of the file the loop is left without a pair. *)
Lemma readLoop_record_end seen :
  readLoop record {| pending := []; rend := io_EOF |} seen = seen.
Proof. rewrite readLoop_step. reflexivity. Qed.

(** A last line without terminator is yielded once. *)
Lemma readLoop_record_partial l seen :
  plain l -> l <> [] ->
  readLoop record {| pending := l; rend := io_EOF |} seen
  = seen ++ [(l, None)].
Proof.
  intros Hl Hne. rewrite readLoop_step. unfold readTurn, ReadString.
  cbn [pending rend].
  replace (cutAt LF l) with (@None (bytes * bytes))
    by (symmetry; apply cutAt_None; apply Hl).
  cbn [isFailure isNil isEOF negb andb].
  replace (bytes_eqb l []) with false by (destruct l; [contradiction|reflexivity]).
  cbn [andb]. rewrite (@TrimRight_outside _ _ (plain_outside Hl)). reflexivity.
Qed.

Lemma readLoop_record_text body lastLine lastEol seen :
  Forall (fun p => plain (fst p) /\ isEOL (snd p)) body ->
  plain lastLine -> lastLine <> [] -> lastEol = [] \/ isEOL lastEol ->
  readLoop record
    {| pending := text body ++ lastLine ++ lastEol; rend := io_EOF |} seen
  = seen ++ map (fun p => (fst p, None)) body ++ [(lastLine, None)].
Proof.
  intros Hb Hl Hne He. revert seen.
  induction Hb as [|[l t] body [Hp Ht] _ IH]; intros seen.
  - cbn [text map concat app]. destruct He as [->|He].
    + rewrite app_nil_r. now apply readLoop_record_partial.
    + rewrite <- (app_nil_r (lastLine ++ lastEol)), <- app_assoc.
      rewrite (readLoop_record_line [] io_EOF seen Hl He).
      apply readLoop_record_end.
  - cbn [fst snd] in Hp, Ht.
    change (text ((l, t) :: body)) with ((l ++ t) ++ text body).
    rewrite <- !app_assoc.
    rewrite (readLoop_record_line _ io_EOF seen Hp Ht).
    rewrite IH. cbn [map fst]. rewrite <- app_assoc. reflexivity.
Qed.

Lemma ReplaceAll_text body :
  Forall (fun p => plain (fst p) /\ isEOL (snd p)) body ->
  ReplaceAll (text body) CR [] = unixText (map fst body).
Proof.
  intros H. induction H as [|[l t] body [[_ Hcr] Ht] _ IH]; [reflexivity|].
  cbn [fst snd] in Hcr, Ht.
  change (text ((l, t) :: body)) with ((l ++ t) ++ text body).
  rewrite !ReplaceAll_app, IH, (ReplaceAll_without Hcr).
  cbn [map fst]. change (unixText (l :: map fst body))
    with ((l ++ [LF]) ++ unixText (map fst body)).
  destruct Ht as [->| ->]; reflexivity.
Qed.

Lemma Split_unixText lines lastLine :
  Forall (without LF) lines -> without LF lastLine ->
  Split (unixText lines ++ lastLine) LF = lines ++ [lastLine].
Proof.
  intros H Hl. induction H as [|l lines Hw _ IH].
  - simpl. now apply Split_without.
  - change (unixText (l :: lines)) with ((l ++ [LF]) ++ unixText lines).
    rewrite <- !app_assoc. cbn [app].
    rewrite Split_app, IH, (Split_without Hw). reflexivity.
Qed.

(** Stripping the trailing newlines of a text whose last line is not
    empty removes the last terminator only. *)
Lemma TrimRight_last_line x lastLine tl :
  lastLine <> [] -> without LF lastLine -> tl = [] \/ tl = [LF] ->
  TrimRight (x ++ lastLine ++ tl) [LF] = x ++ lastLine.
Proof.
  intros Hne Hl Htl. rewrite app_assoc, TrimRight_app.
  replace (TrimRight tl [LF]) with (@nil ascii)
    by (destruct Htl as [->| ->]; reflexivity).
  cbn [isEmpty]. destruct (exists_last Hne) as (p & c & ->).
  rewrite app_assoc. apply TrimRight_snoc. unfold inSet. simpl.
  now rewrite (@without_snoc _ _ _ Hl).
Qed.

(** What [ReadTextFile] makes of a text of terminated lines whose last
    line is not empty. *)
Lemma lines_of_text body lastLine lastEol :
  Forall (fun p => plain (fst p) /\ isEOL (snd p)) body ->
  plain lastLine -> lastLine <> [] -> lastEol = [] \/ isEOL lastEol ->
  Split (TrimRight (ReplaceAll (text body ++ lastLine ++ lastEol) CR []) [LF]) LF
  = map fst body ++ [lastLine].
Proof.
  intros Hb [Hlf Hcr] Hne He.
  rewrite !ReplaceAll_app, (ReplaceAll_text Hb), (ReplaceAll_without Hcr).
  rewrite (@TrimRight_last_line _ lastLine (ReplaceAll lastEol CR []) Hne Hlf).
  - apply Split_unixText; [|exact Hlf].
    apply Forall_map. eapply Forall_impl; [|exact Hb]. intros p [[H _] _]. exact H.
  - destruct He as [->|[->| ->]]; [left|right|right]; reflexivity.
Qed.

(** *** The buffered writer, when the device has room *)

Lemma writeTurn_ok b s :
  sound b -> writeMore b s = true ->
  (length (accepted b) + length s <= capacity b)%nat ->
  sound (fst (writeTurn b s))
  /\ accepted (fst (writeTurn b s)) ++ skipn (snd (writeTurn b s)) s
     = accepted b ++ s
  /\ capacity (fst (writeTurn b s)) = capacity b.
Proof.
  unfold sound, accepted, capacity, writeMore, writeTurn, Flush, File_Write,
    Available, Buffered.
  destruct b as [bf e f]. cbn [buf werr wr].
  intros (-> & Ht & Hb) Hm Hc. rewrite length_app in Hc.
  cbn [isNil] in Hm. rewrite andb_true_r in Hm. apply Nat.ltb_lt in Hm.
  destruct (length bf =? 0)%nat eqn:E0.
  - apply Nat.eqb_eq in E0. destruct bf; [|discriminate]. cbn [length] in *.
    replace (length s <=? room f)%nat with true
      by (symmetry; apply Nat.leb_le; lia).
    cbn [fst snd buf werr wr data tail room length].
    rewrite skipn_all, !app_nil_r.
    repeat split; try assumption; rewrite ?length_app; lia.
  - apply Nat.eqb_neq in E0.
    set (n := Nat.min (defaultBufSize - length bf) (length s)).
    assert (Hn : n = (defaultBufSize - length bf)%nat) by (unfold n; lia).
    assert (Hl : length (bf ++ firstn n s) = (length bf + n)%nat)
      by (rewrite length_app, length_firstn; lia).
    cbn [buf werr wr]. rewrite Hl.
    replace (length bf + n =? 0)%nat with false
      by (symmetry; apply Nat.eqb_neq; lia).
    replace (length bf + n <=? room f)%nat with true
      by (symmetry; apply Nat.leb_le; lia).
    rewrite Nat.ltb_irrefl.
    cbn [andb isNil fst snd buf werr wr data tail room length].
    rewrite !app_nil_r, !length_app, length_firstn.
    repeat split; try assumption; try lia.
    rewrite <- !app_assoc. now rewrite firstn_skipn.
Qed.

Lemma writeLoop_ok b s nn :
  sound b -> (length (accepted b) + length s <= capacity b)%nat ->
  sound (fst (fst (writeLoop b s nn)))
  /\ accepted (fst (fst (writeLoop b s nn))) ++ snd (fst (writeLoop b s nn))
     = accepted b ++ s
  /\ capacity (fst (fst (writeLoop b s nn))) = capacity b
  /\ (length (snd (fst (writeLoop b s nn)))
      <= Available (fst (fst (writeLoop b s nn))))%nat.
Proof.
  funelim (writeLoop b s nn); intros Hs Hc.
  - match goal with E : writeMore _ _ = true |- _ =>
      destruct (@writeTurn_ok _ _ Hs E Hc) as (Hs1 & Ha1 & Hc1) end.
    match goal with IH : sound _ -> _ |- _ =>
      destruct IH as (Hs2 & Ha2 & Hc2 & Hl2) end.
    + exact Hs1.
    + rewrite Hc1. apply f_equal with (f := @length ascii) in Ha1.
      rewrite !length_app in Ha1. lia.
    + split; [exact Hs2|]. split; [now rewrite Ha2|].
      split; [now rewrite Hc2 | exact Hl2].
  - cbn [fst snd]. split; [exact Hs|]. split; [reflexivity|].
    split; [reflexivity|].
    match goal with E : writeMore _ _ = false |- _ => pose proof E as Hm end.
    unfold writeMore in Hm. destruct Hs as (Hw & _ & _). rewrite Hw in Hm.
    cbn [isNil] in Hm. rewrite andb_true_r in Hm. now apply Nat.ltb_ge in Hm.
Qed.

Lemma WriteString_ok b s :
  sound b -> (length (accepted b) + length s <= capacity b)%nat ->
  exists b' n,
    WriteString b s = (b', n, None)
    /\ sound b' /\ accepted b' = accepted b ++ s /\ capacity b' = capacity b.
Proof.
  intros Hs Hc. unfold WriteString.
  destruct (@writeLoop_ok b s 0 Hs Hc) as (Hs1 & Ha1 & Hc1 & Hl1).
  destruct (writeLoop b s 0) as [[b1 s1] nn]. cbn [fst snd] in *.
  destruct Hs1 as (He & Ht & Hb). rewrite He.
  rewrite Nat.min_r by exact Hl1. rewrite firstn_all.
  eexists. eexists. split; [reflexivity|].
  unfold sound, accepted, capacity in *. cbn [buf werr wr].
  unfold Available in Hl1.
  split; [|split; [|exact Hc1]].
  - split; [reflexivity|]. split; [exact Ht|]. rewrite length_app. lia.
  - now rewrite app_assoc, Ha1.
Qed.

Lemma writeLines_ok eol lines :
  forall b,
    sound b ->
    (length (accepted b)
     + length (concat (map (fun line => line ++ eol) lines)) <= capacity b)%nat ->
    exists b',
      writeLines b eol lines = (b', None)
      /\ sound b'
      /\ accepted b' = accepted b ++ concat (map (fun line => line ++ eol) lines)
      /\ capacity b' = capacity b.
Proof.
  induction lines as [|line rest IH]; intros b Hs Hc.
  - exists b. cbn [writeLines map concat]. rewrite app_nil_r.
    split; [reflexivity|]. split; [exact Hs|]. split; reflexivity.
  - cbn [map concat] in *. rewrite !length_app in Hc.
    destruct (@WriteString_ok b line Hs) as (b1 & n1 & E1 & Hs1 & Ha1 & Hc1);
      [lia|].
    destruct (@WriteString_ok b1 eol Hs1) as (b2 & n2 & E2 & Hs2 & Ha2 & Hc2).
    { rewrite Ha1, Hc1, length_app. lia. }
    destruct (IH b2 Hs2) as (b3 & E3 & Hs3 & Ha3 & Hc3).
    { rewrite Ha2, Ha1, Hc2, Hc1, !length_app. lia. }
    exists b3. cbn [writeLines]. rewrite E1, E2, E3.
    split; [reflexivity|]. split; [exact Hs3|]. split.
    + rewrite Ha3, Ha2, Ha1, <- !app_assoc. reflexivity.
    + congruence.
Qed.

Lemma Flush_ok b :
  sound b -> (length (accepted b) <= capacity b)%nat ->
  exists b',
    Flush b = (b', None) /\ data (wr b') = accepted b
    /\ tail (wr b') = io_EOF.
Proof.
  unfold sound, accepted, capacity, Flush, File_Write, Buffered.
  destruct b as [bf e f]. cbn [buf werr wr].
  intros (-> & Ht & _) Hc. rewrite length_app in Hc.
  destruct (length bf =? 0)%nat eqn:E0.
  - apply Nat.eqb_eq in E0. destruct bf; [|discriminate].
    eexists. split; [reflexivity|]. cbn [wr]. now rewrite app_nil_r.
  - replace (length bf <=? room f)%nat with true
      by (symmetry; apply Nat.leb_le; lia).
    rewrite Nat.ltb_irrefl. cbn [andb].
    eexists. split; [reflexivity|]. cbn [wr data tail]. now split.
Qed.

Lemma bytes_eqb_refl s : bytes_eqb s s = true.
Proof. unfold bytes_eqb. destruct (list_eq_dec ascii_dec s s); congruence. Qed.

Lemma os_Open_File_Close fs name f : os_Open (File_Close fs name f) name = Ok f.
Proof. unfold os_Open, File_Close. cbn [node]. now rewrite bytes_eqb_refl. Qed.

(** With the file created and room for every byte, [WriteTextFile] returns
    no error and leaves a sound file holding every line with its end of
    line: the buffer has been flushed before the file is closed. *)
Lemma WriteTextFile_ok goos fs filename lines r :
  creat fs filename = Ok r ->
  (length (written goos lines) <= r)%nat ->
  exists f,
    WriteTextFile goos fs filename lines = (File_Close fs filename f, None)
    /\ data f = written goos lines /\ tail f = io_EOF.
Proof.
  intros Hcr Hr. unfold WriteTextFile, os_Create. rewrite Hcr.
  set (file := {| data := []; tail := io_EOF; room := r |}).
  assert (Hs : sound (bufio_NewWriter file)).
  { unfold sound. cbn. repeat split. lia. }
  destruct (@writeLines_ok (EOL goos) lines (bufio_NewWriter file) Hs)
    as (b1 & E1 & Hs1 & Ha1 & Hc1).
  { unfold accepted, capacity. cbn. fold (written goos lines). lia. }
  rewrite E1.
  destruct (@Flush_ok b1 Hs1) as (b2 & E2 & Hd & Ht).
  { rewrite Ha1, Hc1. unfold accepted, capacity. cbn.
    fold (written goos lines). lia. }
  rewrite E2. exists (wr b2). split; [reflexivity|]. split; [|exact Ht].
  rewrite Hd, Ha1. reflexivity.
Qed.

(** *** Writing, then reading *)

(** The shape of what [ReadTextFile] returns, whatever the content. *)
Lemma read_lines_shape content :
  Split (TrimRight (ReplaceAll content CR []) [LF]) LF <> []
  /\ Forall plain (Split (TrimRight (ReplaceAll content CR []) [LF]) LF)
  /\ (last (Split (TrimRight (ReplaceAll content CR []) [LF]) LF) [] = [] ->
      Split (TrimRight (ReplaceAll content CR []) [LF]) LF = [[]]).
Proof.
  set (stripped := TrimRight (ReplaceAll content CR []) [LF]).
  split; [apply Split_not_nil|]. split.
  - apply Forall_forall. intros line Hin. split.
    + pose proof (Split_pieces_without stripped LF) as H.
      rewrite Forall_forall in H. now apply H.
    + assert (H : Forall (without CR) (Split stripped LF)).
      { apply Split_Forall. apply TrimRight_Forall. apply ReplaceAll_removes. }
      rewrite Forall_forall in H. now apply H.
  - destruct (TrimRight_spec (ReplaceAll content CR []) [LF])
      as (t & _ & _ & Hlast).
    fold stripped in Hlast. destruct Hlast as [E|(s & c & E & Hc)].
    + now rewrite E.
    + rewrite E. intros Hx. exfalso.
      apply (@Split_last_nonempty s c LF); [|exact Hx].
      unfold inSet in Hc. simpl in Hc. now rewrite orb_false_r in Hc.
Qed.

Lemma isEOL_EOL goos : isEOL (EOL goos).
Proof. unfold EOL. destruct (isGOOS goos "windows"); [right|left]; reflexivity. Qed.

Lemma written_text goos lines :
  written goos lines = text (map (fun line => (line, EOL goos)) lines).
Proof. unfold written, text. now rewrite map_map. Qed.

Lemma written_snoc goos init lastLine :
  written goos (init ++ [lastLine])
  = text (map (fun line => (line, EOL goos)) init) ++ lastLine ++ EOL goos.
Proof.
  rewrite written_text. unfold text.
  rewrite !map_app, concat_app. cbn [map concat fst snd].
  now rewrite app_nil_r.
Qed.

(** The lines [ReadTextFile] makes of what [WriteTextFile] writes. *)
Lemma lines_of_written goos lines :
  Forall plain lines -> lines <> [] ->
  last lines [] <> [] \/ lines = [[]] ->
  Split (TrimRight (ReplaceAll (written goos lines) CR []) [LF]) LF = lines.
Proof.
  intros Hp Hne [Hl| ->].
  - destruct (exists_last Hne) as (init & lastLine & ->).
    rewrite last_last in Hl. apply Forall_app in Hp. destruct Hp as [Hi Hlast].
    inversion Hlast as [|? ? Hpl _]; subst.
    rewrite written_snoc, lines_of_text.
    + rewrite map_map. cbn [fst]. now rewrite map_id.
    + apply Forall_map. eapply Forall_impl; [|exact Hi].
      intros l Hl'. cbn [fst snd]. split; [exact Hl' | apply isEOL_EOL].
    + exact Hpl.
    + exact Hl.
    + right. apply isEOL_EOL.
  - unfold written, EOL. destruct (isGOOS goos "windows"); reflexivity.
Qed.

(** *** Write errors *)

(** An error of one of the [WriteString] calls is the error result. *)
Lemma WriteTextFile_returns_write_error goos fs filename lines file out e :
  os_Create fs filename = Ok file ->
  writeLines (bufio_NewWriter file) (EOL goos) lines = (out, Some e) ->
  WriteTextFile goos fs filename lines
  = (File_Close fs filename (wr out), Some e).
Proof.
  intros Hc Hw. unfold WriteTextFile. now rewrite Hc, Hw.
Qed.

(** A line longer than the buffer goes to the file at once: on a device
    that is too small the error is returned. *)
Example WriteTextFile_long_line_error :
  snd (WriteTextFile (go "linux") (emptyDisk 4097) (go "f")
         [repeat "a"%char 5000])
  = Some (PathError ENOSPC).
Proof. vm_compute. reflexivity. Qed.

(** *** The tests of the repository, on the model *)

Example Test_Barename :
  map Barename
    [go "/home/mark/data.dat"; go "C:\Users\mark\config.ini";
     go "archive.tar.gz"; go "master.zip"; go "README";
     go "weird.named.file.xz"]
  = [go "data"; go "config"; go "archive"; go "master"; go "README";
     go "weird"].
Proof. reflexivity. Qed.

Example Test_LongestCommonPath2 :
  LongestCommonPath (go "linux")
    [go "/users/mark/app/go/ufile"; go "/Users/mark/app/py/accelhints";
     go "/home/mark/app/rs"] = go "/"
  /\ LongestCommonPath (go "windows")
       [go "\users\mark\app\go\ufile"; go "\Users\mark\app\py\accelhints";
        go "\home\mark\app\rs"] = go "\".
Proof. split; reflexivity. Qed.

Example Test_LongestCommonPath3 :
  forall goos,
    LongestCommonPath goos
      [go "C:\users\mark\app\go\ufile"; go "/Users/mark/app/py/accelhints"]
    = go "".
Proof.
  intros goos. rewrite LongestCommonPath_many.
  unfold foldCase. destruct (caseInsensitive goos); reflexivity.
Qed.

Example Test_LongestCommonPath4 :
  LongestCommonPath (go "linux")
    [go "mark/app/go/ufile"; go "mark/app/py/accelhints"; go "mark/app/rs";
     go "mark/app/rsc"] = go "mark/app"
  /\ LongestCommonPath (go "windows")
       [go "mark\app\go\ufile"; go "mark\app\py\accelhints"; go "mark\app\rs";
        go "mark\app\rsc"] = go "mark\app".
Proof. split; reflexivity. Qed.

Example Test_LongestCommonPath6 :
  LongestCommonPath (go "linux")
    [go "/home/mark/bin/checksum"; go "/home/mark/bin/checkkey"]
  = go "/home/mark/bin"
  /\ LongestCommonPath (go "linux")
       [go "/home/mark/bin/checksum"; go "/home/mark/bip/checkkey"]
     = go "/home/mark"
  /\ LongestCommonPath (go "linux")
       [go "/home/marm/bin/checksum"; go "/home/mark/bin/checkkey"]
     = go "/home"
  /\ LongestCommonPath (go "linux")
       [go "/home/marm/bin/checksum"; go "/homer/mark/bin/checkkey"]
     = go "/".
Proof. repeat split. Qed.

Example Test_read_write_text :
  let Lines := [go "This text file has non-ASCII characters:";
                go "é and ä, π and α²."] in
  let fs := fst (WriteTextFile (go "linux") (emptyDisk 1000) (go "t.txt") Lines) in
  snd (WriteTextFile (go "linux") (emptyDisk 1000) (go "t.txt") Lines) = None
  /\ ReadTextFile fs (go "t.txt") = (Lines, None)
  /\ yielded fs (go "t.txt") = map (fun l => (l, None)) Lines.
Proof. vm_compute. repeat split. Qed.

Lemma joinWith_JoinNonEmpty sep : JoinNonEmpty (joinWith sep).
Proof.
  intros elems. induction elems as [|e rest IH]; simpl; [discriminate|].
  destruct e as [|c e]; simpl.
  - exact IH.
  - intros _. destruct (joinWith sep rest); discriminate.
Qed.

(** *** More on Barename *)

Lemma untilByte_app c a t : untilByte c (a ++ c :: t) = untilByte c a.
Proof.
  induction a as [|x a IH]; simpl.
  - now rewrite Ascii.eqb_refl.
  - destruct (Ascii.eqb x c); [reflexivity | now rewrite IH].
Qed.

Lemma untilByte_without c s : without c s -> untilByte c s = s.
Proof.
  intros H. induction H as [|x s Hx _ IH]; simpl; [reflexivity|].
  now rewrite Hx, IH.
Qed.

Lemma noDot_without s : noDot s <-> without "." s.
Proof.
  unfold noDot, without. split; intros H; eapply Forall_impl; try exact H;
    intros c Hc; cbv beta in *; now rewrite Ascii.eqb_sym.
Qed.

(** What [untilByte] leaves out is empty or begins with the byte. *)
Lemma untilByte_split c s :
  exists rest, s = untilByte c s ++ rest
               /\ (rest = [] \/ exists t, rest = c :: t).
Proof.
  induction s as [|x s (rest & Hs & Hr)]; simpl.
  - exists []. split; [reflexivity | now left].
  - destruct (Ascii.eqb x c) eqn:E.
    + apply Ascii.eqb_eq in E. subst x. exists (c :: s).
      split; [reflexivity|]. right. now exists s.
    + exists rest. split; [simpl; now rewrite <- Hs | exact Hr].
Qed.

Lemma untilByte_Forall (P : ascii -> Prop) c s :
  Forall P s -> Forall P (untilByte c s).
Proof.
  intros H. induction H as [|x s Hx _ IH]; simpl; [constructor|].
  destruct (Ascii.eqb x c); constructor; assumption.
Qed.

Lemma untilByte_free c s : without c (untilByte c s).
Proof.
  induction s as [|x s IH]; simpl; [constructor|].
  destruct (Ascii.eqb x c) eqn:E; constructor; assumption.
Qed.

(** The loop of [Barename] leaves what stands before the first dot. *)
Lemma stripSuffixes_untilByte s : stripSuffixes s = untilByte "." s.
Proof.
  remember (length s) as n eqn:Hn. revert s Hn.
  induction n as [n IH] using lt_wf_ind. intros s Hn.
  destruct (split_at_last (Ascii.eqb ".") s) as [H|(a & c & t & -> & Hc & Ht)].
  - rewrite (stripSuffixes_noDot H).
    symmetry. apply untilByte_without. now apply noDot_without.
  - apply Ascii.eqb_eq in Hc. subst c.
    rewrite (stripSuffixes_dot a Ht), untilByte_app.
    apply (IH (length a)); [|reflexivity].
    subst n. rewrite length_app. simpl. lia.
Qed.

Lemma Barename_untilByte dir base :
  dirPrefix dir -> noSep base ->
  Barename (dir ++ base) = untilByte "." base.
Proof.
  intros Hd Hb. unfold Barename. rewrite (stripDir_app Hd Hb).
  apply stripSuffixes_untilByte.
Qed.

(** *** More on LongestCommonPath *)

Lemma without_flip c s :
  without c s -> Forall (fun x => Ascii.eqb c x = false) s.
Proof.
  intros H. eapply Forall_impl; [|exact H].
  intros x Hx. cbv beta in *. now rewrite Ascii.eqb_sym.
Qed.

Lemma commonPrefix_same p : commonPrefix p p = p.
Proof.
  induction p as [|c p IH]; simpl; [reflexivity|].
  now rewrite Ascii.eqb_refl, IH.
Qed.

Lemma LongestCommonPrefix_repeat p n :
  LongestCommonPrefix (repeat p (S n)) = p.
Proof.
  simpl. induction n as [|n IH]; simpl; [reflexivity|].
  now rewrite commonPrefix_same.
Qed.

Lemma commonPrefix_prefix a b : prefixOf (commonPrefix a b) a.
Proof.
  revert b. induction a as [|x a IH]; intros b.
  - exists []. destruct b; reflexivity.
  - destruct b as [|y b]; simpl; [now exists (x :: a)|].
    destruct (Ascii.eqb x y); [|now exists (x :: a)].
    destruct (IH b) as (rest & Hr). exists rest. simpl. now rewrite <- Hr.
Qed.

Lemma prefixOf_trans a b c : prefixOf a b -> prefixOf b c -> prefixOf a c.
Proof.
  intros (r1 & ->) (r2 & ->). exists (r1 ++ r2). now rewrite app_assoc.
Qed.

Lemma fold_commonPrefix_prefix rest first :
  prefixOf (fold_left commonPrefix rest first) first.
Proof.
  revert first. induction rest as [|x rest IH]; intros first; simpl.
  - exists []. now rewrite app_nil_r.
  - eapply prefixOf_trans; [apply IH | apply commonPrefix_prefix].
Qed.

(** The result is cut from the front of the raw prefix. *)
Lemma LongestCommonPath_prefix_of_raw goos paths :
  (2 <= length paths)%nat ->
  prefixOf (LongestCommonPath goos paths)
           (LongestCommonPrefix (foldCase goos paths)).
Proof.
  intros Hn. destruct paths as [|p [|q rest]]; simpl in Hn; try lia.
  rewrite LongestCommonPath_many. cbv zeta.
  set (prefix := LongestCommonPrefix (foldCase goos (p :: q :: rest))).
  destruct (1 <? len prefix)%Z.
  - destruct (LastIndexByte prefix (PathSeparator goos) =? -1)%Z.
    + now exists prefix.
    + unfold slice_to. eexists. symmetry. apply firstn_skipn.
  - exists []. now rewrite app_nil_r.
Qed.

(** With a raw prefix of more than one byte, the result is the raw prefix
    cut before its last separator. *)
Lemma LongestCommonPath_cut :
  forall (goos : bytes) (paths : list bytes),
    (2 <= length paths)%nat ->
    (1 < len (LongestCommonPrefix (foldCase goos paths)))%Z ->
    (without (PathSeparator goos) (LongestCommonPrefix (foldCase goos paths)) ->
     LongestCommonPath goos paths = [])
    /\ (forall a b,
          LongestCommonPrefix (foldCase goos paths)
          = a ++ PathSeparator goos :: b ->
          without (PathSeparator goos) b ->
          LongestCommonPath goos paths
          = if isEmpty a then [PathSeparator goos] else a).
Proof.
  intros goos paths Hn Hl.
  destruct paths as [|p [|q rest]]; simpl in Hn; try lia.
  rewrite LongestCommonPath_many. cbv zeta.
  set (prefix := LongestCommonPrefix (foldCase goos (p :: q :: rest))) in *.
  replace (1 <? len prefix)%Z with true by (symmetry; now apply Z.ltb_lt).
  split.
  - intros Hw. now rewrite (@LastIndexByte_none _ _ (without_flip Hw)).
  - intros a b Hp Hb. rewrite Hp.
    rewrite (@LastIndexByte_last a _ b (without_flip Hb)).
    pose proof (len_nonneg a) as Ha.
    replace (len a =? -1)%Z with false by (symmetry; apply Z.eqb_neq; lia).
    destruct a as [|x a].
    + reflexivity.
    + replace (len (x :: a) =? 0)%Z with false
        by (symmetry; apply Z.eqb_neq; unfold len; simpl length; lia).
      apply slice_to_app.
Qed.




Lemma commonPrefix_prefix_r a b : prefixOf (commonPrefix a b) b.
Proof.
  revert b. induction a as [|x a IH]; intros b.
  - now exists b.
  - destruct b as [|y b]; simpl; [now exists []|].
    destruct (Ascii.eqb x y) eqn:E; [|now exists (y :: b)].
    apply Ascii.eqb_eq in E. subst y.
    destruct (IH b) as (rest & Hr). exists rest. simpl. now rewrite <- Hr.
Qed.

Lemma fold_commonPrefix_prefix_each rest :
  forall first x, In x rest ->
    prefixOf (fold_left commonPrefix rest first) x.
Proof.
  induction rest as [|y rest IH]; intros first x Hin; [contradiction|].
  simpl. destruct Hin as [->|Hin].
  - eapply prefixOf_trans;
      [apply fold_commonPrefix_prefix | apply commonPrefix_prefix_r].
  - now apply IH.
Qed.

Lemma LongestCommonPrefix_prefix_each items x :
  In x items -> prefixOf (LongestCommonPrefix items) x.
Proof.
  destruct items as [|first rest]; [contradiction|].
  intros [->|Hin]; simpl.
  - apply fold_commonPrefix_prefix.
  - now apply fold_commonPrefix_prefix_each.
Qed.

Lemma prefixOf_refl a : prefixOf a a.
Proof. exists []. now rewrite app_nil_r. Qed.

Lemma LongestCommonPath_prefix_each goos paths p :
  In p (foldCase goos paths) -> prefixOf (LongestCommonPath goos paths) p.
Proof.
  intros Hin. destruct paths as [|p1 [|p2 rest]].
  - unfold foldCase in Hin. destruct (caseInsensitive goos); contradiction.
  - unfold foldCase in Hin. simpl.
    destruct (caseInsensitive goos); simpl in Hin;
      destruct Hin as [<-|[]]; apply prefixOf_refl.
  - eapply prefixOf_trans.
    + apply LongestCommonPath_prefix_of_raw. simpl. lia.
    + now apply LongestCommonPrefix_prefix_each.
Qed.

(** *** More on GetConfigFile *)

Lemma candidates_nonempty Join env domain appname ext :
  JoinNonEmpty Join ->
  candidates Join env domain (appname ++ dotted ext) <> []
  /\ Forall (fun p => p <> [])
            (candidates Join env domain (appname ++ dotted ext)).
Proof.
  intros HJ.
  pose proof (filename_nonEmpty appname ext) as Hf.
  set (filename := appname ++ dotted ext) in *.
  assert (Hfn : filename <> []) by (destruct filename; [discriminate|congruence]).
  assert (J3 : forall d x, Join [d; x; filename] <> []).
  { intros d x. apply HJ. simpl. rewrite Hf. now rewrite !orb_true_r. }
  assert (J2 : forall d, Join [d; filename] <> []).
  { intros d. apply HJ. simpl. rewrite Hf. now rewrite !orb_true_r. }
  assert (Jd : forall d x, Join [d; go "." ++ x] <> []).
  { intros d x. apply HJ. simpl. now rewrite !orb_true_r. }
  assert (Hdash : forall d x : bytes, d ++ go "-" ++ x <> [])
    by (intros [|? ?] x; discriminate).
  unfold candidates, configCandidates, homeCandidates, cwdCandidates.
  destruct (UserConfigDir env), (UserHomeDir env), (nonEmpty domain);
    cbn [app]; (split; [discriminate|]); repeat constructor;
    try apply J3; try apply J2; try apply Jd; try apply Hdash;
    try exact Hfn; try discriminate.
Qed.

Lemma hd_In (A : Type) (d : A) (l : list A) : l <> [] -> In (hd d l) l.
Proof. destruct l; [congruence | intros _; now left]. Qed.

(** *** More on ReadTextFile *)

Lemma TrimRight_all s cutset :
  Forall (fun c => inSet c cutset = true) s -> TrimRight s cutset = [].
Proof.
  intros H. induction H as [|c s Hc _ IH]; simpl; [reflexivity|].
  now rewrite IH, Hc.
Qed.

Lemma ReplaceAll_repeat_LF k : ReplaceAll (repeat LF k) CR [] = repeat LF k.
Proof. induction k as [|k IH]; simpl; [reflexivity | now rewrite IH]. Qed.

Lemma TrimRight_repeat_LF s k :
  TrimRight (s ++ repeat LF k) [LF] = TrimRight s [LF].
Proof.
  rewrite TrimRight_app, TrimRight_all; [reflexivity|].
  apply Forall_forall. intros c Hc. apply repeat_spec in Hc. now subst c.
Qed.

Lemma ReplaceAll_idempotent s old :
  ReplaceAll (ReplaceAll s old []) old [] = ReplaceAll s old [].
Proof. apply ReplaceAll_without, ReplaceAll_removes. Qed.

Lemma ReadTextFile_textFile name content :
  ReadTextFile (oneFile name (textFile content)) name
  = (Split (TrimRight (ReplaceAll content CR []) [LF]) LF, None).
Proof.
  apply (@ReadTextFile_ok _ name (textFile content)); [|reflexivity].
  unfold os_Open, oneFile. cbn [node]. now rewrite bytes_eqb_refl.
Qed.

Lemma ReplaceAll_written goos lines :
  ReplaceAll (written goos lines) CR []
  = unixText (map (fun line => ReplaceAll line CR []) lines).
Proof.
  unfold written, unixText.
  induction lines as [|l lines IH]; [reflexivity|].
  cbn [map concat]. rewrite !ReplaceAll_app, IH. f_equal. f_equal.
  unfold EOL. destruct (isGOOS goos "windows"); reflexivity.
Qed.

(** *** More on the loop of ReadUtf8Lines *)

(** One turn of the loop, by what the reader holds. *)
Lemma readLoop_turn (S : Type)
  (yield : bytes -> option error -> S -> S * bool) r st :
  readLoop yield r st =
  match cutAt LF (pending r) with
  | Some (line, rest) =>
      if snd (yield (TrimRight line [CR; LF]) None st)
      then readLoop yield {| pending := rest; rend := rend r |}
             (fst (yield (TrimRight line [CR; LF]) None st))
      else fst (yield (TrimRight line [CR; LF]) None st)
  | None =>
      if isFailure (Some (rend r)) then fst (yield [] (Some (rend r)) st)
      else if bytes_eqb (pending r) [] then st
      else fst (yield (TrimRight (pending r) [CR; LF]) None st)
  end.
Proof.
  rewrite readLoop_step. unfold readTurn, ReadString.
  destruct (cutAt LF (pending r)) as [[line rest]|] eqn:E.
  - cbn [isFailure isNil isEOF negb andb]. rewrite andb_false_r.
    destruct (yield (TrimRight line [CR; LF]) None st) as [st' more].
    cbn [fst snd]. destruct more; reflexivity.
  - destruct (isFailure (Some (rend r))) eqn:F; [reflexivity|].
    assert (Heof : isEOF (Some (rend r)) = true)
      by (destruct (rend r); try reflexivity; discriminate).
    rewrite Heof, andb_true_r.
    destruct (bytes_eqb (pending r) []); [reflexivity|].
    destruct (yield _ None st) as [st' more]. cbn [fst].
    destruct more; reflexivity.
Qed.

Lemma record_fst l e seen : fst (record l e seen) = seen ++ [(l, e)].
Proof. reflexivity. Qed.

Lemma record_snd l e seen : snd (record l e seen) = true.
Proof. reflexivity. Qed.

Lemma upTo_fst n l e seen : fst (upTo n l e seen) = seen ++ [(l, e)].
Proof. reflexivity. Qed.

Lemma upTo_snd n l e seen :
  snd (upTo n l e seen) = (S (length seen) <? n)%nat.
Proof. reflexivity. Qed.

(** The pairs already recorded play no role in what is recorded next. *)
Lemma readLoop_record_acc n :
  forall r seen, (length (pending r) < n)%nat ->
    readLoop record r seen = seen ++ readLoop record r [].
Proof.
  induction n as [|n IH]; intros r seen Hn; [lia|].
  rewrite (readLoop_turn record r seen), (readLoop_turn record r []).
  destruct (cutAt LF (pending r)) as [[line rest]|] eqn:E;
    rewrite ?record_snd, ?record_fst; cbn [app].
  - pose proof (cutAt_length _ _ E) as Hl.
    rewrite (IH {| pending := rest; rend := rend r |}
               (seen ++ [(TrimRight line [CR; LF], None)])) by (simpl; lia).
    rewrite (IH {| pending := rest; rend := rend r |}
               [(TrimRight line [CR; LF], None)]) by (simpl; lia).
    now rewrite <- app_assoc.
  - destruct (isFailure (Some (rend r))); [reflexivity|].
    destruct (bytes_eqb (pending r) []); [now rewrite app_nil_r | reflexivity].
Qed.

Lemma readLoop_record_from r seen :
  readLoop record r seen = seen ++ readLoop record r [].
Proof. apply (@readLoop_record_acc (S (length (pending r)))). lia. Qed.

Lemma TrimRight_idempotent s cutset :
  TrimRight (TrimRight s cutset) cutset = TrimRight s cutset.
Proof.
  destruct (TrimRight_spec s cutset) as (_ & _ & _ & [E|(s' & c & E & Hc)]).
  - now rewrite E.
  - rewrite E. now apply TrimRight_snoc.
Qed.

Lemma TrimRight_terminated body :
  TrimRight (body ++ [LF]) [CR; LF] = TrimRight body [CR; LF].
Proof. rewrite TrimRight_app. reflexivity. Qed.

(** What is yielded from a sound file: no error, and lines that hold no
    newline and do not end with a carriage return or a newline. *)
Lemma readLoop_record_clean n :
  forall r, (length (pending r) < n)%nat -> rend r = io_EOF ->
    Forall (fun p => snd p = None /\ without LF (fst p)
                     /\ TrimRight (fst p) [CR; LF] = fst p)
           (readLoop record r []).
Proof.
  induction n as [|n IH]; intros r Hn He; [lia|].
  rewrite (readLoop_turn record r []). unfold record. cbn [fst snd app].
  destruct (cutAt LF (pending r)) as [[line rest]|] eqn:E.
  - pose proof (cutAt_length _ _ E) as Hl.
    destruct (cutAt_Some _ _ E) as (body & -> & _ & Hb).
    rewrite readLoop_record_from. constructor.
    + cbn [fst snd]. rewrite TrimRight_terminated.
      split; [reflexivity|]. split; [now apply TrimRight_Forall|].
      apply TrimRight_idempotent.
    + apply IH; [simpl; lia | exact He].
  - rewrite He. cbn [isFailure isNil isEOF negb andb].
    destruct (bytes_eqb (pending r) []); [constructor|].
    constructor; [|constructor]. cbn [fst snd].
    split; [reflexivity|]. split.
    + apply TrimRight_Forall. now apply cutAt_None.
    + apply TrimRight_idempotent.
Qed.

(** Breaking out after [n] pairs gives the first [n] pairs of the whole
    iteration. *)
Lemma readLoop_upTo n k :
  forall r seen, (length (pending r) < k)%nat -> (length seen < n)%nat ->
    readLoop (upTo n) r seen
    = seen ++ firstn (n - length seen) (readLoop record r []).
Proof.
  induction k as [|k IH]; intros r seen Hk Hn; [lia|].
  rewrite (readLoop_turn (upTo n) r seen), (readLoop_turn record r []).
  destruct (n - length seen)%nat as [|m] eqn:Em; [lia|].
  destruct (cutAt LF (pending r)) as [[line rest]|] eqn:E;
    rewrite ?upTo_snd, ?upTo_fst, ?record_snd, ?record_fst; cbn [app].
  - pose proof (cutAt_length _ _ E) as Hl.
    rewrite (readLoop_record_from _ [_]). cbn [app firstn].
    destruct (S (length seen) <? n)%nat eqn:Hlt.
    + apply Nat.ltb_lt in Hlt.
      rewrite IH; [|simpl; lia | rewrite length_app; simpl; lia].
      rewrite length_app. simpl length.
      replace (n - (length seen + 1))%nat with m by lia.
      now rewrite <- app_assoc.
    + apply Nat.ltb_ge in Hlt. replace m with 0%nat by lia. reflexivity.
  - destruct (isFailure (Some (rend r))); [cbn [firstn]; now destruct m|].
    destruct (bytes_eqb (pending r) []); [now rewrite app_nil_r|].
    cbn [firstn]. now destruct m.
Qed.

Lemma cutAt_app delim s t line rest :
  cutAt delim s = Some (line, rest) ->
  cutAt delim (s ++ t) = Some (line, rest ++ t).
Proof.
  revert line rest. induction s as [|c s IH]; intros line rest; simpl.
  - discriminate.
  - destruct (Ascii.eqb c delim); [now intros [= <- <-]|].
    destruct (cutAt delim s) as [[l r]|]; [|discriminate].
    intros [= <- <-]. now rewrite (IH l r eq_refl).
Qed.

(** A content that ends with a newline after a last line that is not
    empty is iterated as the content without that newline. *)
Lemma readLoop_record_final_newline partial k :
  partial <> [] -> without LF partial ->
  forall pre seen, (length pre < k)%nat ->
    (pre = [] \/ exists b, pre = b ++ [LF]) ->
    readLoop record {| pending := pre ++ partial ++ [LF]; rend := io_EOF |} seen
    = readLoop record {| pending := pre ++ partial; rend := io_EOF |} seen.
Proof.
  intros Hne Hw. induction k as [|k IH]; intros pre seen Hk Hpre; [lia|].
  rewrite (readLoop_turn record _ seen).
  rewrite (readLoop_turn record {| pending := pre ++ partial; rend := io_EOF |}
             seen).
  rewrite ?record_snd, ?record_fst. cbn [pending rend].
  destruct Hpre as [->|(b & ->)].
  - cbn [app]. rewrite (cutAt_line [] Hw).
    replace (cutAt LF partial) with (@None (bytes * bytes))
      by (symmetry; now apply cutAt_None).
    cbn [isFailure isNil isEOF negb andb].
    replace (bytes_eqb partial []) with false
      by (destruct partial; [contradiction | reflexivity]).
    rewrite readLoop_turn. cbn [pending rend cutAt].
    cbn [isFailure isNil isEOF negb andb]. rewrite bytes_eqb_refl.
    now rewrite TrimRight_terminated.
  - destruct (cutAt LF (b ++ [LF])) as [[line rest]|] eqn:E.
    + pose proof (cutAt_length _ _ E) as Hl.
      destruct (cutAt_Some _ _ E) as (body & -> & Hs & _).
      rewrite (@cutAt_app _ _ (partial ++ [LF]) _ _ E), (@cutAt_app _ _ partial _ _ E).
      rewrite ?record_snd, ?record_fst.
      apply IH; [lia|].
      destruct rest as [|x rest'] eqn:Er; [now left|]. right.
      destruct (@exists_last _ (x :: rest') ltac:(discriminate)) as (r' & c & Hr).
      rewrite Hr in Hs. rewrite !app_assoc in Hs.
      apply app_inj_tail in Hs. destruct Hs as [_ <-]. now exists r'.
    + apply cutAt_None in E. apply without_snoc in E.
      rewrite Ascii.eqb_refl in E. discriminate.
Qed.

(** A content of terminated lines is iterated as its lines. *)
Lemma readLoop_record_terminated body seen :
  Forall (fun p => plain (fst p) /\ isEOL (snd p)) body ->
  readLoop record {| pending := text body; rend := io_EOF |} seen
  = seen ++ map (fun p => (fst p, None)) body.
Proof.
  intros H. revert seen.
  induction H as [|[l t] body [Hp Ht] _ IH]; intros seen.
  - cbn [text map concat]. rewrite app_nil_r. apply readLoop_record_end.
  - cbn [fst snd] in Hp, Ht.
    change (text ((l, t) :: body)) with ((l ++ t) ++ text body).
    rewrite <- app_assoc.
    rewrite (readLoop_record_line _ io_EOF seen Hp Ht).
    rewrite IH. cbn [map fst]. now rewrite <- app_assoc.
Qed.

(** *** The buffered writer on a device of any size *)

Lemma writeLoop_done b s nn : writeMore b s = false -> writeLoop b s nn = (b, s, nn).
Proof.
  intros H. funelim (writeLoop b s nn); [congruence | reflexivity].
Qed.

Lemma writeLoop_more b s nn :
  writeMore b s = true ->
  writeLoop b s nn
  = writeLoop (fst (writeTurn b s)) (skipn (snd (writeTurn b s)) s)
              (nn + snd (writeTurn b s)).
Proof.
  intros H. funelim (writeLoop b s nn); [reflexivity | congruence].
Qed.

Lemma prefixOf_app a b : prefixOf a (a ++ b).
Proof. now exists b. Qed.

Lemma prefixOf_app_r a b c : prefixOf a b -> prefixOf a (b ++ c).
Proof. intros (t & ->). exists (t ++ c). now rewrite app_assoc. Qed.

(** One turn of the loop of [WriteString]: all goes on, or the file is
    full. *)
Lemma writeTurn_any b s r :
  werr b = None -> capacity b = r -> writeMore b s = true ->
  (werr (fst (writeTurn b s)) = None
   /\ accepted (fst (writeTurn b s)) ++ skipn (snd (writeTurn b s)) s
      = accepted b ++ s
   /\ capacity (fst (writeTurn b s)) = r)
  \/ stuck (fst (writeTurn b s)) (accepted b ++ s) r.
Proof.
  unfold stuck, accepted, capacity, writeMore, writeTurn, Flush,
    File_Write, Available, Buffered.
  destruct b as [bf e f]. cbn [buf werr wr].
  intros -> Hc Hm. cbn [isNil] in Hm. rewrite andb_true_r in Hm.
  apply Nat.ltb_lt in Hm.
  destruct (length bf =? 0)%nat eqn:E0.
  - apply Nat.eqb_eq in E0. destruct bf; [|discriminate].
    destruct (length s <=? room f)%nat eqn:Ef.
    + apply Nat.leb_le in Ef. left.
      cbn [fst snd buf werr wr data room]. rewrite skipn_all, !app_nil_r.
      split; [reflexivity|]. split; [reflexivity|].
      rewrite length_app. lia.
    + apply Nat.leb_gt in Ef. right.
      cbn [fst snd buf werr wr data room]. rewrite !app_nil_r.
      split; [discriminate|]. split.
      * rewrite length_app, length_firstn. lia.
      * split; [|rewrite length_app; lia].
        exists (skipn (room f) s).
        now rewrite <- app_assoc, firstn_skipn.
  - apply Nat.eqb_neq in E0.
    set (n := Nat.min (defaultBufSize - length bf) (length s)).
    assert (Hn : n = (defaultBufSize - length bf)%nat) by (unfold n; lia).
    assert (Hl : length (bf ++ firstn n s) = (length bf + n)%nat)
      by (rewrite length_app, length_firstn; lia).
    cbn [buf werr wr]. rewrite Hl.
    replace (length bf + n =? 0)%nat with false
      by (symmetry; apply Nat.eqb_neq; lia).
    destruct (length bf + n <=? room f)%nat eqn:Ef.
    + apply Nat.leb_le in Ef. left. rewrite Nat.ltb_irrefl.
      cbn [andb isNil fst snd buf werr wr data room].
      rewrite !app_nil_r, !length_app, length_firstn.
      split; [reflexivity|]. split; [|lia].
      rewrite <- !app_assoc. now rewrite firstn_skipn.
    + apply Nat.leb_gt in Ef. right.
      cbn [andb isNil fst snd buf werr wr data room]. rewrite andb_false_r.
      cbn [fst snd buf werr wr data room].
      split; [discriminate|]. split.
      * rewrite length_app, length_firstn, Hl. lia.
      * split.
        -- exists (skipn (room f) (bf ++ firstn n s) ++ skipn n s).
           rewrite <- !app_assoc.
           rewrite (app_assoc (firstn (room f) _)), firstn_skipn.
           now rewrite <- app_assoc, firstn_skipn.
        -- rewrite !length_app. lia.
Qed.

Lemma writeLoop_any n r :
  forall b s nn all,
    (writeMeasure b s < n)%nat ->
    werr b = None -> capacity b = r -> accepted b ++ s = all ->
    (werr (fst (fst (writeLoop b s nn))) = None
     /\ accepted (fst (fst (writeLoop b s nn))) ++ snd (fst (writeLoop b s nn))
        = all
     /\ capacity (fst (fst (writeLoop b s nn))) = r
     /\ (length (snd (fst (writeLoop b s nn)))
         <= Available (fst (fst (writeLoop b s nn))))%nat)
    \/ stuck (fst (fst (writeLoop b s nn))) all r.
Proof.
  induction n as [|n IH]; intros b s nn all Hn He Hc Ha; [lia|].
  destruct (writeMore b s) eqn:Hm.
  - rewrite (@writeLoop_more b s nn Hm).
    pose proof (@writeTurn_decreases b s Hm) as Hd.
    destruct (@writeTurn_any b s r He Hc Hm) as [(He1 & Ha1 & Hc1)|Hst].
    + apply IH; try assumption; [lia|]. now rewrite Ha1.
    + right. rewrite writeLoop_done; [now rewrite <- Ha|].
      unfold writeMore. destruct Hst as (Hw & _).
      destruct (werr (fst (writeTurn b s))); [|contradiction].
      now rewrite andb_false_r.
  - left. rewrite (@writeLoop_done b s nn Hm). cbn [fst snd].
    split; [exact He|]. split; [exact Ha|]. split; [exact Hc|].
    unfold writeMore in Hm. rewrite He in Hm. cbn [isNil] in Hm.
    rewrite andb_true_r in Hm. now apply Nat.ltb_ge in Hm.
Qed.

(** [WriteString] on a writer without error: the string is accepted, or an
    error is returned and the file is full. *)
Lemma WriteString_any b s all r :
  holding b all r ->
  (snd (WriteString b s) = None
   /\ holding (fst (fst (WriteString b s))) (all ++ s) r)
  \/ (snd (WriteString b s) <> None
      /\ stuck (fst (fst (WriteString b s))) (all ++ s) r).
Proof.
  intros (He & Ha & Hc). unfold WriteString.
  destruct (@writeLoop_any (S (writeMeasure b s)) r b s 0 (all ++ s))
    as [(He1 & Ha1 & Hc1 & Hl1)|Hst]; try assumption;
    [lia | now rewrite Ha | |].
  - destruct (writeLoop b s 0) as [[b1 s1] nn]. cbn [fst snd] in *.
    left. rewrite He1. cbn [fst snd].
    split; [reflexivity|]. rewrite Nat.min_r by exact Hl1. rewrite firstn_all.
    unfold holding, accepted, capacity in *. cbn [buf werr wr].
    split; [reflexivity|]. split; [now rewrite app_assoc | exact Hc1].
  - destruct (writeLoop b s 0) as [[b1 s1] nn]. cbn [fst snd] in *.
    right. pose proof Hst as (Hw & _).
    destruct (werr b1) as [e|]; [|contradiction]. cbn [fst snd].
    split; [discriminate | exact Hst].
Qed.

Lemma stuck_more b all more r : stuck b all r -> stuck b (all ++ more) r.
Proof.
  intros (Hw & Hl & Hp & Hr). split; [exact Hw|]. split; [exact Hl|].
  split; [now apply prefixOf_app_r | rewrite length_app; lia].
Qed.

Lemma writeLines_any eol lines r :
  forall b all,
    holding b all r ->
    (snd (writeLines b eol lines) = None
     /\ holding (fst (writeLines b eol lines))
                (all ++ concat (map (fun line => line ++ eol) lines)) r)
    \/ (snd (writeLines b eol lines) <> None
        /\ stuck (fst (writeLines b eol lines))
                 (all ++ concat (map (fun line => line ++ eol) lines)) r).
Proof.
  induction lines as [|line rest IH]; intros b all Hh.
  - left. cbn [writeLines map concat fst snd]. now rewrite app_nil_r.
  - cbn [writeLines map concat].
    destruct (@WriteString_any b line all r Hh) as [(E1 & H1)|(E1 & H1)];
      destruct (WriteString b line) as [[b1 n1] e1]; cbn [fst snd] in *.
    + subst e1.
      destruct (@WriteString_any b1 eol (all ++ line) r H1)
        as [(E2 & H2)|(E2 & H2)];
        destruct (WriteString b1 eol) as [[b2 n2] e2]; cbn [fst snd] in *.
      * subst e2. rewrite <- app_assoc in H2.
        destruct (IH b2 (all ++ line ++ eol) H2) as [(E3 & H3)|(E3 & H3)].
        -- left. split; [exact E3|].
           rewrite <- !app_assoc in H3. rewrite <- !app_assoc. exact H3.
        -- right. split; [exact E3|].
           rewrite <- !app_assoc in H3. rewrite <- !app_assoc. exact H3.
      * destruct e2 as [e2|]; [|contradiction]. right. cbn [fst snd].
        split; [discriminate|].
        rewrite <- app_assoc in H2.
        replace (all ++ (line ++ eol) ++ concat (map (fun l => l ++ eol) rest))
          with ((all ++ line ++ eol) ++ concat (map (fun l => l ++ eol) rest))
          by (now rewrite <- !app_assoc).
        now apply stuck_more.
    + destruct e1 as [e1|]; [|contradiction]. right. cbn [fst snd].
      split; [discriminate|].
      replace (all ++ (line ++ eol) ++ concat (map (fun l => l ++ eol) rest))
        with ((all ++ line)
              ++ eol ++ concat (map (fun l => l ++ eol) rest))
        by (now rewrite <- !app_assoc).
      now apply stuck_more.
Qed.

Lemma firstn_prefix_full a all :
  prefixOf a all -> firstn (length a) all = a.
Proof.
  intros (t & ->). rewrite firstn_app, firstn_all, Nat.sub_diag.
  cbn [firstn]. apply app_nil_r.
Qed.

(** The final [Flush] of a writer without error leaves in the file the
    first bytes of what was accepted, as many as the file can hold. *)
Lemma Flush_any b all r :
  holding b all r ->
  data (wr (fst (Flush b))) = firstn r all.
Proof.
  unfold holding, accepted, capacity, Flush, File_Write, Buffered.
  destruct b as [bf e f]. cbn [buf werr wr].
  intros (-> & Ha & Hc).
  destruct (length bf =? 0)%nat eqn:E0.
  - apply Nat.eqb_eq in E0. destruct bf; [|discriminate].
    cbn [fst wr]. rewrite app_nil_r in Ha. subst all.
    rewrite firstn_all2; [reflexivity | lia].
  - destruct (length bf <=? room f)%nat eqn:Ef.
    + apply Nat.leb_le in Ef. rewrite Nat.ltb_irrefl.
      cbn [andb isNil fst wr data]. subst all.
      rewrite firstn_all2; [reflexivity | rewrite length_app; lia].
    + apply Nat.leb_gt in Ef. cbn [isNil]. rewrite andb_false_r.
      cbn [fst wr data]. subst all r.
      rewrite Nat.add_comm, firstn_app_2. reflexivity.
Qed.

(** A string that fits in the buffer is only appended to it. *)
Lemma WriteString_buffered b s :
  werr b = None -> (length (buf b) + length s <= defaultBufSize)%nat ->
  WriteString b s
  = ({| buf := buf b ++ s; werr := None; wr := wr b |}, length s, None).
Proof.
  intros He Hl. unfold WriteString.
  rewrite writeLoop_done.
  - rewrite He. unfold Available. rewrite Nat.min_r by lia.
    now rewrite firstn_all.
  - unfold writeMore, Available.
    replace (defaultBufSize - length (buf b) <? length s)%nat with false
      by (symmetry; apply Nat.ltb_ge; lia).
    reflexivity.
Qed.

Lemma writeLines_buffered eol lines :
  forall b,
    werr b = None ->
    (length (buf b) + length (concat (map (fun line => line ++ eol) lines))
     <= defaultBufSize)%nat ->
    writeLines b eol lines
    = ({| buf := buf b ++ concat (map (fun line => line ++ eol) lines);
          werr := None; wr := wr b |}, None).
Proof.
  induction lines as [|line rest IH]; intros b He Hl.
  - cbn [writeLines map concat]. rewrite app_nil_r.
    destruct b as [bf e f]. cbn [werr] in He. now subst e.
  - cbn [map concat] in *. rewrite !length_app in Hl.
    cbn [writeLines].
    rewrite (WriteString_buffered b line He) by lia.
    rewrite WriteString_buffered; cbn [buf werr wr];
      [|reflexivity | rewrite length_app; lia].
    rewrite IH; cbn [buf werr wr];
      [|reflexivity | rewrite !length_app; lia].
    now rewrite <- !app_assoc.
Qed.

(** * The claims *)

(** ** Barename *)

(** C9.  For every path, [Barename] first removes everything up to and
    including the last ['/'] or ['\'] (the directory part [dir] of the path
    [dir ++ base]); then it removes the token after the last remaining ['.'],
    with its dot, again and again until no dot remains: a name without a dot
    is returned unchanged, and the result never holds a dot.  The three
    examples of the specification are instances. *)
Theorem Barename_strips_dir_then_suffixes :
  forall dir base stem tok : bytes,
    dirPrefix dir -> noSep base -> noSep stem -> noSep tok -> noDot tok ->
    Barename (dir ++ base) = Barename base
    /\ Barename (stem ++ "."%char :: tok) = Barename stem
    /\ (noDot stem -> Barename stem = stem)
    /\ (forall path,
          noDot (Barename path)
          /\ exists dir' base',
               path = dir' ++ base' /\ dirPrefix dir' /\ noSep base'
               /\ Barename path = Barename base'
               /\ (noDot base' /\ Barename base' = base'
                   \/ exists stem' tok',
                        base' = stem' ++ "."%char :: tok' /\ noDot tok'
                        /\ Barename base' = Barename stem'))
    /\ Barename (go "/home/mark/data.dat") = go "data"
    /\ Barename (go "weird.named.file.xz") = go "weird"
    /\ Barename (go "README") = go "README".
Proof.
  intros dir base stem tok Hdir Hbase Hstem Htok Hdot.
  assert (Hsep : isSep "."%char = false) by reflexivity.
  assert (Hcut : forall d b, dirPrefix d -> noSep b ->
                             Barename (d ++ b) = Barename b).
  { intros d b Hd Hb. unfold Barename.
    now rewrite stripDir_app, stripDir_noSep. }
  assert (Hsuf : forall s t, noSep (s ++ "."%char :: t) -> noDot t ->
                             Barename (s ++ "."%char :: t) = Barename s).
  { intros s t Hst Ht. unfold Barename.
    pose proof (proj1 (noSep_app _ _) Hst) as [Hs _].
    rewrite !stripDir_noSep; [now apply stripSuffixes_dot | exact Hs | exact Hst]. }
  assert (Hid : forall s, noSep s -> noDot s -> Barename s = s).
  { intros s Hs Hd. unfold Barename. rewrite stripDir_noSep by exact Hs.
    now apply stripSuffixes_noDot. }
  split; [now apply Hcut|]. split.
  { apply Hsuf; [|exact Hdot]. apply noSep_app. split; [exact Hstem|].
    constructor; assumption. }
  split; [intros Hnd; now apply Hid|]. split; [|repeat split].
  intros path. split; [unfold Barename; apply stripSuffixes_result_noDot|].
  destruct (path_dir_base path) as (d & b & -> & Hd & Hb).
  exists d, b. split; [reflexivity|]. split; [exact Hd|]. split; [exact Hb|].
  split; [now apply Hcut|].
  destruct (split_at_last (Ascii.eqb ".") b) as [H|(s & c & t & -> & Hc & Ht)].
  - left. split; [exact H | now apply Hid].
  - apply Ascii.eqb_eq in Hc. subst c. right. exists s, t.
    split; [reflexivity|]. split; [exact Ht|]. now apply Hsuf.
Qed.

Lemma Barename_strips_dir_then_suffixes_witness :
  Barename (go "/home/mark/" ++ go "data.dat") = Barename (go "data.dat")
  /\ Barename (go "data" ++ "."%char :: go "dat") = Barename (go "data")
  /\ (noDot (go "data") -> Barename (go "data") = go "data").
Proof.
  assert (Hdir : dirPrefix (go "/home/mark/")).
  { right. exists (go "/home/mark"), "/"%char. split; reflexivity. }
  assert (Hbase : noSep (go "data.dat")) by (repeat constructor).
  assert (Hstem : noSep (go "data")) by (repeat constructor).
  assert (Htok : noSep (go "dat")) by (repeat constructor).
  assert (Hdot : noDot (go "dat")) by (repeat constructor).
  destruct (@Barename_strips_dir_then_suffixes
              (go "/home/mark/") (go "data.dat") (go "data") (go "dat")
              Hdir Hbase Hstem Htok Hdot) as (H1 & H2 & H3 & _).
  exact (conj H1 (conj H2 H3)).
Defined.

(** C10.  A path whose base name begins with a dot and has no other dot
    (".bashrc", "/home/mark/.gitignore") has the empty bare name: the loop
    cuts at the leading dot. *)
Theorem Barename_dotfile_empty :
  forall dir rest : bytes,
    dirPrefix dir -> noSep rest -> noDot rest ->
    Barename (dir ++ "."%char :: rest) = [].
Proof.
  intros dir rest Hdir Hsep Hdot. unfold Barename.
  rewrite stripDir_app; [|exact Hdir|constructor; [reflexivity|exact Hsep]].
  change ("."%char :: rest) with ([] ++ "."%char :: rest).
  rewrite (@stripSuffixes_dot [] rest Hdot).
  apply stripSuffixes_noDot. constructor.
Qed.

Lemma Barename_dotfile_empty_witness :
  Barename (go ".bashrc") = [] /\ Barename (go "/home/mark/.gitignore") = [].
Proof.
  split.
  - apply (@Barename_dotfile_empty [] (go "bashrc")).
    + left. reflexivity.
    + repeat constructor.
    + repeat constructor.
  - apply (@Barename_dotfile_empty (go "/home/mark/") (go "gitignore")).
    + right. exists (go "/home/mark"), "/"%char. split; reflexivity.
    + repeat constructor.
    + repeat constructor.
Defined.

(** ** LongestCommonPath *)

(** C1, as stated, fails on a Windows target: there [os.PathSeparator] is
    ['\'], the raw prefix "/home/mark/app/" holds no separator, and the
    result is the empty string. *)
Lemma LongestCommonPath_slash_paths_on_windows :
  LongestCommonPath (go "windows")
    [go "/home/mark/app/go/ufile"; go "/home/mark/app/py/x";
     go "/home/mark/app/rs"] = go ""
  /\ LongestCommonPath (go "windows")
       [go "/home/mark/app/go/ufile"; go "/home/mark/app/py/x";
        go "/home/mark/app/rs"] <> go "/home/mark/app".
Proof. split; [reflexivity | discriminate]. Qed.

(** C1, amended.  On every target whose path separator is ['/'] (all but
    Windows) [LongestCommonPath] cuts the raw common prefix back to a whole
    component: the four results of the specification.  On Windows the same
    results are obtained from the paths written with ['\']. *)
Theorem LongestCommonPath_component_boundary :
  forall goos : bytes,
    isGOOS goos "windows" = false ->
    LongestCommonPath goos
      [go "/home/mark/app/go/ufile"; go "/home/mark/app/py/x";
       go "/home/mark/app/rs"] = go "/home/mark/app"
    /\ LongestCommonPath goos
         [go "/home/mark/app/go/ufile"; go "/home/mark/apps/bin";
          go "/home/mark/app/py/x"] = go "/home/mark"
    /\ LongestCommonPath goos [go "/home/page"; go "/homeric/poem"] = go "/"
    /\ LongestCommonPath goos [go "home"; go "homeric"] = go ""
    /\ LongestCommonPath (go "windows")
         [go "\home\mark\app\go\ufile"; go "\home\mark\app\py\x";
          go "\home\mark\app\rs"] = go "\home\mark\app"
    /\ LongestCommonPath (go "windows")
         [go "\home\mark\app\go\ufile"; go "\home\mark\apps\bin";
          go "\home\mark\app\py\x"] = go "\home\mark"
    /\ LongestCommonPath (go "windows") [go "\home\page"; go "\homeric\poem"]
       = go "\"
    /\ LongestCommonPath (go "windows") [go "home"; go "homeric"] = go "".
Proof.
  intros goos Hw.
  repeat split; try reflexivity;
    rewrite LongestCommonPath_many;
    unfold foldCase, caseInsensitive, PathSeparator; rewrite Hw;
    destruct (isGOOS goos "darwin"); reflexivity.
Qed.

Lemma LongestCommonPath_component_boundary_witness :
  isGOOS (go "linux") "windows" = false
  /\ LongestCommonPath (go "linux")
       [go "/home/mark/app/go/ufile"; go "/home/mark/apps/bin";
        go "/home/mark/app/py/x"] = go "/home/mark".
Proof.
  split; [reflexivity|].
  apply (@LongestCommonPath_component_boundary (go "linux")). reflexivity.
Defined.

(** C2, as stated, fails: the raw prefix of "/a" and "/b" is "/", of length
    one, and the result is "/", not the empty string. *)
Lemma LongestCommonPath_root_prefix_kept :
  (2 <= length [go "/a"; go "/b"])%nat
  /\ LongestCommonPrefix (foldCase (go "linux") [go "/a"; go "/b"]) = go "/"
  /\ (len (LongestCommonPrefix (foldCase (go "linux") [go "/a"; go "/b"]))
      <= 1)%Z
  /\ LongestCommonPath (go "linux") [go "/a"; go "/b"] = go "/"
  /\ LongestCommonPath (go "linux") [go "/a"; go "/b"] <> [].
Proof.
  split; [simpl; lia|]. split; [reflexivity|]. split; [vm_compute; discriminate|].
  split; [reflexivity | discriminate].
Qed.

(** C2, amended.  For two or more paths whose raw common prefix (of the
    lower-cased paths on a case-insensitive target) is empty, the result is
    the empty string; when the raw prefix is the path separator alone, the
    result is that separator, the root. *)
Theorem LongestCommonPath_short_prefix :
  forall (goos : bytes) (paths : list bytes),
    (2 <= length paths)%nat ->
    (LongestCommonPrefix (foldCase goos paths) = [] ->
     LongestCommonPath goos paths = [])
    /\ (LongestCommonPrefix (foldCase goos paths) = [PathSeparator goos] ->
        LongestCommonPath goos paths = [PathSeparator goos]).
Proof.
  intros goos paths Hn.
  split; intros Hp; rewrite LongestCommonPath_guard_keeps_short_prefix;
    try assumption; rewrite Hp; vm_compute; discriminate.
Qed.

Lemma LongestCommonPath_short_prefix_witness :
  LongestCommonPath (go "linux") [go "/a"; go "/b"] = [PathSeparator (go "linux")]
  /\ LongestCommonPath (go "linux") [go "a"; go "b"] = [].
Proof.
  split.
  - apply (@LongestCommonPath_short_prefix (go "linux") [go "/a"; go "/b"]).
    + simpl. lia.
    + reflexivity.
  - apply (@LongestCommonPath_short_prefix (go "linux") [go "a"; go "b"]).
    + simpl. lia.
    + reflexivity.
Defined.

(** ** GetConfigFile *)

(** C8, as stated, fails where the config dir is not resolved: no candidate
    exists, and the path returned is under the home dir; no config dir is
    there for it to be based on. *)
Lemma GetConfigFile_without_config_dir :
  (forall p, FileExists homeOnlyEnv p = false)
  /\ GetConfigFile (joinWith "/") homeOnlyEnv
       (go "domain.com") (go "myapp") (go ".json")
     = (go "/home/mark/.domain.com-myapp.json", false)
  /\ ~ (exists configDir,
         UserConfigDir homeOnlyEnv = Ok configDir
         /\ GetConfigFile (joinWith "/") homeOnlyEnv
              (go "domain.com") (go "myapp") (go ".json")
            = (joinWith "/" [configDir; go "domain.com"; go "myapp.json"],
               false)).
Proof.
  split; [reflexivity|]. split; [reflexivity|].
  intros (configDir & H & _). discriminate H.
Qed.

(** C8, amended.  [GetConfigFile] returns [(p, true)] for the first
    candidate [p] at which a file exists, the candidates being, in order,
    config-dir/domain/name, config-dir/name, home/.domain-name and
    home/.name (the domain-qualified ones only with a non-empty domain, each
    pair only when its directory is resolved, and the names relative to the
    current directory when neither is).  When no candidate exists it returns
    the first candidate with [false]: with the config dir resolved that is
    the config-dir one, domain-qualified when the domain is non-empty. *)
Theorem GetConfigFile_first_existing_candidate :
  forall (Join : list bytes -> bytes) (env : Env) (domain appname ext : bytes),
    JoinNonEmpty Join ->
    let filename := appname ++ dotted ext in
    let cands := candidates Join env domain filename in
    (forall before p after,
        cands = before ++ p :: after ->
        FileExists env p = true ->
        Forall (fun q => FileExists env q = false) before ->
        GetConfigFile Join env domain appname ext = (p, true))
    /\ (Forall (fun q => FileExists env q = false) cands ->
        GetConfigFile Join env domain appname ext = (hd [] cands, false))
    /\ (forall configDir,
          UserConfigDir env = Ok configDir ->
          hd [] cands =
          if nonEmpty domain then Join [configDir; domain; filename]
          else Join [configDir; filename])
    /\ (forall configDir homeDir,
          UserConfigDir env = Ok configDir -> UserHomeDir env = Ok homeDir ->
          nonEmpty domain = true ->
          cands = [Join [configDir; domain; filename];
                   Join [configDir; filename];
                   Join [homeDir; go "." ++ domain ++ go "-" ++ filename];
                   Join [homeDir; go "." ++ filename]]).
Proof.
  intros Join env domain appname ext HJ filename cands.
  split; [|split; [|split]].
  - intros before p after Hc Hp Hb.
    rewrite GetConfigFile_find by exact HJ. fold filename. fold cands.
    now rewrite (@find_first _ (FileExists env) cands before after p Hc Hp Hb).
  - intros Hnone.
    rewrite GetConfigFile_find by exact HJ. fold filename. fold cands.
    now rewrite (@find_none _ (FileExists env) cands Hnone).
  - intros configDir Hcd. unfold cands, candidates, configCandidates.
    rewrite Hcd.
    destruct (UserHomeDir env), (nonEmpty domain); reflexivity.
  - intros configDir homeDir Hcd Hhd Hdom.
    unfold cands, candidates, configCandidates, homeCandidates.
    rewrite Hcd, Hhd, Hdom. reflexivity.
Qed.

Lemma GetConfigFile_first_existing_candidate_witness :
  GetConfigFile (joinWith "/") someEnv (go "domain.com") (go "myapp") (go "ini")
  = (go "/home/mark/.config/myapp.ini", true).
Proof.
  destruct (@GetConfigFile_first_existing_candidate (joinWith "/") someEnv
              (go "domain.com") (go "myapp") (go "ini")
              (joinWith_JoinNonEmpty "/")) as [H _].
  apply (H [go "/home/mark/.config/domain.com/myapp.ini"]
           (go "/home/mark/.config/myapp.ini")
           [go "/home/mark/.domain.com-myapp.ini"; go "/home/mark/.myapp.ini"]).
  - reflexivity.
  - reflexivity.
  - repeat constructor.
Defined.

(** ** ReadTextFile *)

(** C4, as stated, fails on a content that ends with more than one
    newline: [bytes.TrimRight(raw, "\n")] strips them all, where the
    specification has a single one stripped and an empty last line kept. *)
Lemma ReadTextFile_strips_every_trailing_newline :
  ReadTextFile (oneFile (go "f") (textFile (go "a" ++ [LF; LF]))) (go "f")
  = ([go "a"], None)
  /\ linesBySpec (go "a" ++ [LF; LF]) = [go "a"; go ""]
  /\ fst (ReadTextFile (oneFile (go "f") (textFile (go "a" ++ [LF; LF])))
            (go "f"))
     <> linesBySpec (go "a" ++ [LF; LF]).
Proof. repeat split. discriminate. Qed.

(** C4, amended.  For a file read without error, [ReadTextFile] returns the
    lines obtained by removing every carriage return, stripping every
    trailing newline, and splitting the remainder on newline.  The lines
    hold no newline and no carriage return and, joined by newlines, give the
    stripped content back.  There is at least one line, and the last line
    is empty only when it is the only one; a content that ends in the middle
    of a line yields that partial line as the last element. *)
Theorem ReadTextFile_lines :
  forall (fs : FS) (filename : bytes) (f : File),
    os_Open fs filename = Ok f -> tail f = io_EOF ->
    let stripped := TrimRight (ReplaceAll (data f) CR []) [LF] in
    let lines := fst (ReadTextFile fs filename) in
    ReadTextFile fs filename = (Split stripped LF, None)
    /\ (exists trailing,
          ReplaceAll (data f) CR [] = stripped ++ trailing
          /\ Forall (fun c => c = LF) trailing
          /\ (stripped = [] \/ exists s c, stripped = s ++ [c] /\ c <> LF))
    /\ joinLines LF lines = stripped
    /\ Forall plain lines
    /\ lines <> []
    /\ (last lines [] = [] -> lines = [[]])
    /\ (forall before partial,
          data f = before ++ partial ->
          (before = [] \/ exists b, before = b ++ [LF]) ->
          partial <> [] -> without LF partial -> without CR partial ->
          last lines [] = partial).
Proof.
  intros fs filename f Ho Ht stripped lines.
  pose proof (ReadTextFile_ok fs filename Ho Ht) as Hr. fold stripped in Hr.
  assert (Hl : lines = Split stripped LF) by (unfold lines; now rewrite Hr).
  destruct (TrimRight_spec (ReplaceAll (data f) CR []) [LF])
    as (t & Hs & Ht' & Hlast).
  destruct (read_lines_shape (data f)) as (Hne & Hplain & Hempty).
  fold stripped in Hs, Hlast, Hne, Hplain, Hempty. rewrite <- Hl in *.
  split; [exact Hr|]. split; [|split; [|split; [|split; [|split]]]].
  - exists t. split; [exact Hs|]. split.
    + eapply Forall_impl; [|exact Ht']. intros c Hc. now apply inSet_LF.
    + destruct Hlast as [E|(s & c & E & Hc)]; [now left|].
      right. exists s, c. split; [exact E|].
      intros ->. unfold inSet in Hc. simpl in Hc. discriminate.
  - rewrite Hl. apply joinLines_Split.
  - exact Hplain.
  - exact Hne.
  - exact Hempty.
  - intros before partial Hd Hb Hnp Hlf Hcr.
    destruct (Split_partial_last Hb Hnp Hlf Hcr) as [H1 H2].
    rewrite Hl. unfold stripped. rewrite Hd, H1. exact H2.
Qed.

Lemma ReadTextFile_lines_witness :
  ReadTextFile (oneFile (go "f") (textFile (go "a" ++ [CR; LF] ++ go "bc")))
    (go "f")
  = ([go "a"; go "bc"], None).
Proof.
  destruct (@ReadTextFile_lines
              (oneFile (go "f") (textFile (go "a" ++ [CR; LF] ++ go "bc")))
              (go "f") (textFile (go "a" ++ [CR; LF] ++ go "bc"))
              eq_refl eq_refl) as [H _].
  exact H.
Defined.

(** ** ReadUtf8Lines *)

(** C6.  The error protocol of [ReadUtf8Lines], for any consumer.  When
    opening the file fails, exactly one pair is yielded, the empty string
    with the open error.  When a read gives an error other than [io.EOF],
    the pair of the empty string and that error is yielded and the iteration
    is over, whatever the consumer answers.  In every run a pair with an
    error has the empty string and is the last pair yielded; on a file whose
    reads end with an I/O error a consumer that never stops is given that
    error pair last. *)
Theorem ReadUtf8Lines_error_protocol :
  forall (S : Type) (yield : bytes -> option error -> S -> S * bool)
         (fs : FS) (filename : bytes) (st : S),
    (forall e, os_Open fs filename = Err e ->
       ReadUtf8Lines (traced yield) fs filename (st, [])
       = (fst (yield [] (Some e) st), [([], Some e)]))
    /\ (forall r tr line err r',
          ReadString r LF = (line, err, r') -> isFailure err = true ->
          readLoop (traced yield) r (st, tr)
          = (fst (yield [] err st), tr ++ [([], err)]))
    /\ (forall before line e after,
          snd (ReadUtf8Lines (traced yield) fs filename (st, []))
          = before ++ (line, Some e) :: after ->
          line = [] /\ after = [])
    /\ (forall f,
          os_Open fs filename = Ok f -> isFailure (Some (tail f)) = true ->
          (forall l e s, snd (yield l e s) = true) ->
          exists before,
            Forall (fun p => snd p = None) before
            /\ snd (ReadUtf8Lines (traced yield) fs filename (st, []))
               = before ++ [([], Some (tail f))]).
Proof.
  intros S yield fs filename st.
  split; [|split; [|split]].
  - intros e Ho. unfold ReadUtf8Lines. rewrite Ho. unfold traced.
    cbn [fst snd]. destruct (yield [] (Some e) st) as [s1 m]. reflexivity.
  - intros r tr line err r' Hr Hf.
    rewrite (readLoop_failure (traced yield) r (st, tr) Hr Hf).
    unfold traced. cbn [fst snd].
    destruct (yield [] err st) as [s1 m]. reflexivity.
  - intros before line e after Heq. unfold ReadUtf8Lines in Heq.
    destruct (os_Open fs filename) as [f|e0].
    + destruct (@readLoop_traced_errorLast S yield
                  (Datatypes.S (length (pending (bufio_NewReader f))))
                  (bufio_NewReader f) st [] (Nat.lt_succ_diag_r _))
        as (new & Hnew & Hp).
      rewrite Hnew in Heq. simpl in Heq.
      exact (@errorLast_inv new before line e after Hp Heq).
    + unfold traced in Heq. cbn [fst snd] in Heq.
      destruct (yield [] (Some e0) st) as [s1 m]. cbn [fst snd] in Heq.
      destruct before as [|b before].
      * simpl in Heq. injection Heq as <- _ <-. now split.
      * simpl in Heq. injection Heq as _ Heq. destruct before; discriminate.
  - intros f Ho Hf Hy. unfold ReadUtf8Lines. rewrite Ho.
    destruct (@readLoop_failing_file S yield
                (Datatypes.S (length (pending (bufio_NewReader f)))) Hy
                (bufio_NewReader f) st [] (Nat.lt_succ_diag_r _) Hf)
      as (before & Hb & Heq).
    exists before. split; [exact Hb | exact Heq].
Qed.

Lemma ReadUtf8Lines_error_protocol_witness :
  ReadUtf8Lines (traced record) (oneFile (go "f") failingFile) (go "g") ([], [])
  = ([([], Some (PathError ENOENT))], [([], Some (PathError ENOENT))])
  /\ exists before,
       Forall (fun p => snd p = None) before
       /\ snd (ReadUtf8Lines (traced record) (oneFile (go "f") failingFile)
                 (go "f") ([], []))
          = before ++ [([], Some (PathError EIO))].
Proof.
  split.
  - destruct (@ReadUtf8Lines_error_protocol _ record
                (oneFile (go "f") failingFile) (go "g") []) as [H _].
    apply (H (PathError ENOENT)). reflexivity.
  - destruct (@ReadUtf8Lines_error_protocol _ record
                (oneFile (go "f") failingFile) (go "f") [])
      as (_ & _ & _ & H).
    apply (H failingFile).
    + reflexivity.
    + reflexivity.
    + intros l e s. reflexivity.
Defined.

(** C5, as stated, fails.  On an empty file, read by both without error,
    the iterator yields nothing and [ReadTextFile] returns one empty line;
    on a content that ends with an empty line the iterator yields that line
    and [ReadTextFile] does not return it. *)
Lemma ReadUtf8Lines_differs_from_ReadTextFile :
  ReadTextFile (oneFile (go "f") (textFile [])) (go "f") = ([[]], None)
  /\ yielded (oneFile (go "f") (textFile [])) (go "f") = []
  /\ map fst (yielded (oneFile (go "f") (textFile [])) (go "f"))
     <> fst (ReadTextFile (oneFile (go "f") (textFile [])) (go "f"))
  /\ ReadTextFile (oneFile (go "f") (textFile (go "a" ++ [LF; LF]))) (go "f")
     = ([go "a"], None)
  /\ yielded (oneFile (go "f") (textFile (go "a" ++ [LF; LF]))) (go "f")
     = [(go "a", None); ([], None)].
Proof. repeat split. discriminate. Qed.

(** C5, amended.  For a file read without error whose content is made of
    lines without newline or carriage return, each ended by "\n" or
    "\r\n" (the terminator of the last line may be missing), and whose last
    line is not empty, the lines yielded by [ReadUtf8Lines], all without
    error, are element for element the lines returned by [ReadTextFile]:
    the lines of the content. *)
Theorem ReadUtf8Lines_agrees_with_ReadTextFile :
  forall (fs : FS) (filename : bytes) (f : File)
         (body : list (bytes * bytes)) (lastLine lastEol : bytes),
    os_Open fs filename = Ok f -> tail f = io_EOF ->
    data f = text body ++ lastLine ++ lastEol ->
    Forall (fun p => plain (fst p) /\ isEOL (snd p)) body ->
    plain lastLine -> lastLine <> [] -> lastEol = [] \/ isEOL lastEol ->
    map fst (yielded fs filename) = fst (ReadTextFile fs filename)
    /\ Forall (fun p => snd p = None) (yielded fs filename)
    /\ ReadTextFile fs filename = (map fst body ++ [lastLine], None).
Proof.
  intros fs filename f body lastLine lastEol Ho Ht Hd Hb Hl Hne He.
  assert (Hy : yielded fs filename
               = map (fun p => (fst p, None)) body ++ [(lastLine, None)]).
  { unfold yielded, ReadUtf8Lines, bufio_NewReader. rewrite Ho, Ht, Hd.
    now rewrite (readLoop_record_text [] Hb Hl Hne He). }
  assert (Hr : ReadTextFile fs filename = (map fst body ++ [lastLine], None)).
  { rewrite (ReadTextFile_ok fs filename Ho Ht), Hd.
    now rewrite (lines_of_text Hb Hl Hne He). }
  split; [|split; [|exact Hr]].
  - rewrite Hy, Hr, map_app, map_map. reflexivity.
  - rewrite Hy. apply Forall_app. split.
    + apply Forall_map. apply Forall_forall. reflexivity.
    + repeat constructor.
Qed.

Lemma ReadUtf8Lines_agrees_with_ReadTextFile_witness :
  map fst (yielded (oneFile (go "f")
                      (textFile (go "a" ++ [CR; LF] ++ go "b" ++ [LF])))
             (go "f"))
  = fst (ReadTextFile (oneFile (go "f")
                         (textFile (go "a" ++ [CR; LF] ++ go "b" ++ [LF])))
           (go "f")).
Proof.
  apply (@ReadUtf8Lines_agrees_with_ReadTextFile
           (oneFile (go "f") (textFile (go "a" ++ [CR; LF] ++ go "b" ++ [LF])))
           (go "f") (textFile (go "a" ++ [CR; LF] ++ go "b" ++ [LF]))
           [(go "a", [CR; LF])] (go "b") [LF]).
  - reflexivity.
  - reflexivity.
  - reflexivity.
  - constructor; [|constructor]. split.
    + split; repeat constructor.
    + right. reflexivity.
  - split; repeat constructor.
  - discriminate.
  - right. left. reflexivity.
Defined.

(** ** WriteTextFile, then ReadTextFile *)

(** C3, as stated, fails.  No line at all is written as an empty file,
    which is read as one empty line; an empty last line is lost; a
    carriage return inside a line is lost.  None of these lines holds a
    newline. *)
Lemma WriteTextFile_ReadTextFile_not_identity :
  snd (WriteTextFile (go "linux") (emptyDisk 100) (go "f") []) = None
  /\ ReadTextFile (fst (WriteTextFile (go "linux") (emptyDisk 100) (go "f") []))
       (go "f") = ([[]], None)
  /\ fst (ReadTextFile
            (fst (WriteTextFile (go "linux") (emptyDisk 100) (go "f") []))
            (go "f")) <> []
  /\ ReadTextFile
       (fst (WriteTextFile (go "linux") (emptyDisk 100) (go "f")
               [go "a"; go ""]))
       (go "f") = ([go "a"], None)
  /\ ReadTextFile
       (fst (WriteTextFile (go "linux") (emptyDisk 100) (go "f")
               [go "a" ++ [CR] ++ go "b"]))
       (go "f") = ([go "ab"], None).
Proof. repeat split. discriminate. Qed.

(** C3, amended.  On any target, for every sequence of lines without
    newline characters, written to a file that can be created on a device
    with room for it, [WriteTextFile] succeeds and [ReadTextFile] then reads
    the file without error; what it returns is the original sequence exactly
    when that sequence is not empty, none of its lines holds a carriage
    return, and its last line is not empty (or it is the single empty line). *)
Theorem WriteTextFile_ReadTextFile_roundtrip :
  forall (goos : bytes) (fs : FS) (filename : bytes) (lines : list bytes)
         (r : nat),
    creat fs filename = Ok r ->
    (length (written goos lines) <= r)%nat ->
    Forall (without LF) lines ->
    exists fs' got,
      WriteTextFile goos fs filename lines = (fs', None)
      /\ ReadTextFile fs' filename = (got, None)
      /\ (got = lines <->
          lines <> [] /\ Forall (without CR) lines
          /\ (last lines [] <> [] \/ lines = [[]])).
Proof.
  intros goos fs filename lines r Hcr Hr Hlf.
  destruct (WriteTextFile_ok goos fs filename lines Hcr Hr)
    as (f & Hw & Hd & Ht).
  pose proof (os_Open_File_Close fs filename f) as Ho.
  pose proof (ReadTextFile_ok _ _ Ho Ht) as Hrd. rewrite Hd in Hrd.
  exists (File_Close fs filename f). eexists.
  split; [exact Hw|]. split; [exact Hrd|].
  destruct (read_lines_shape (written goos lines)) as (Hne & Hp & Hl).
  split.
  - intros E. rewrite E in Hne, Hp, Hl. split; [exact Hne|]. split.
    + eapply Forall_impl; [|exact Hp]. intros l [_ H]. exact H.
    + destruct (last lines []) eqn:El; [right; now apply Hl | left; discriminate].
  - intros (Hne' & Hcrs & Hlast). apply lines_of_written; try assumption.
    apply Forall_forall. intros l Hin.
    rewrite Forall_forall in Hlf, Hcrs. split; [now apply Hlf | now apply Hcrs].
Qed.

Lemma WriteTextFile_ReadTextFile_roundtrip_witness :
  exists fs' got,
    WriteTextFile (go "windows") (emptyDisk 100) (go "f") [go "one"; go "two"]
    = (fs', None)
    /\ ReadTextFile fs' (go "f") = (got, None)
    /\ (got = [go "one"; go "two"] <->
        [go "one"; go "two"] <> []
        /\ Forall (without CR) [go "one"; go "two"]
        /\ (last [go "one"; go "two"] [] <> []
            \/ [go "one"; go "two"] = [[]])).
Proof.
  apply (@WriteTextFile_ReadTextFile_roundtrip (go "windows") (emptyDisk 100)
           (go "f") [go "one"; go "two"] 100).
  - reflexivity.
  - vm_compute. lia.
  - repeat constructor.
Defined.

(** ** WriteTextFile and write errors *)

(** C7.  [WriteTextFile] at a device that accepts no byte, with the one
    line "a".  Both [WriteString] calls only fill the buffer; the write
    happens in [out.Flush()], fails there with ENOSPC, and the result of
    [Flush] is not looked at: [WriteTextFile] returns [nil] and the file is
    left empty.  The claim has this error returned to the caller. *)
Theorem WriteTextFile_flush_error_not_returned :
  snd (Flush (fst (writeLines
                     (bufio_NewWriter {| data := []; tail := io_EOF; room := 0 |})
                     (EOL (go "linux")) [go "a"])))
  = Some (PathError ENOSPC)
  /\ snd (WriteTextFile (go "linux") (emptyDisk 0) (go "f") [go "a"]) = None
  /\ os_Open (fst (WriteTextFile (go "linux") (emptyDisk 0) (go "f") [go "a"]))
       (go "f")
     = Ok {| data := []; tail := io_EOF; room := 0 |}.
Proof. vm_compute. repeat split. Qed.

(** * Further properties of the code *)

(** ** Barename *)

(** X1.  The bare name of a path is its base name (what follows the last
    ['/'] or ['\']) up to the first dot of that base name; dots in the
    directory part play no role. *)
Theorem Barename_is_base_until_first_dot :
  forall dir base : bytes,
    dirPrefix dir -> noSep base ->
    Barename (dir ++ base) = untilByte "." base.
Proof. intros dir base Hd Hb. now apply Barename_untilByte. Qed.

Lemma Barename_is_base_until_first_dot_witness :
  Barename (go "/etc/conf.d/" ++ go "archive.tar.gz")
  = untilByte "." (go "archive.tar.gz").
Proof.
  apply (@Barename_is_base_until_first_dot
           (go "/etc/conf.d/") (go "archive.tar.gz")).
  - right. exists (go "/etc/conf.d"), "/"%char. split; reflexivity.
  - repeat constructor.
Defined.

(** X2.  A bare name holds no ['/'], no ['\'] and no ['.'], and [Barename]
    leaves it as it is: [Barename] is idempotent. *)
Theorem Barename_idempotent :
  forall path : bytes,
    noSep (Barename path) /\ noDot (Barename path)
    /\ Barename (Barename path) = Barename path.
Proof.
  intros path.
  destruct (path_dir_base path) as (d & b & -> & Hd & Hb).
  rewrite (Barename_untilByte Hd Hb).
  assert (Hs : noSep (untilByte "." b)) by now apply untilByte_Forall.
  assert (Hn : noDot (untilByte "." b))
    by (apply noDot_without; apply untilByte_free).
  split; [exact Hs|]. split; [exact Hn|].
  unfold Barename. rewrite (stripDir_noSep Hs).
  now apply stripSuffixes_noDot.
Qed.

(** X3.  The bare name is a piece of the path: the path is a directory
    part, then the bare name, then nothing or a dot and what follows it. *)
Theorem Barename_is_part_of_path :
  forall path : bytes,
    exists dir rest,
      path = dir ++ Barename path ++ rest
      /\ dirPrefix dir /\ noSep rest
      /\ (rest = [] \/ exists t, rest = "."%char :: t).
Proof.
  intros path.
  destruct (path_dir_base path) as (d & b & -> & Hd & Hb).
  rewrite (Barename_untilByte Hd Hb).
  destruct (untilByte_split "." b) as (rest & Hs & Hr).
  exists d, rest. split; [now rewrite <- Hs|]. split; [exact Hd|].
  split; [|exact Hr].
  rewrite Hs in Hb. apply noSep_app in Hb. tauto.
Qed.

(** X4.  The empty path and every path that ends with a separator have the
    empty bare name. *)
Theorem Barename_of_directory_path :
  Barename [] = []
  /\ forall (dir : bytes) (c : ascii),
       isSep c = true -> Barename (dir ++ [c]) = [].
Proof.
  split; [reflexivity|]. intros dir c Hc.
  rewrite <- (app_nil_r (dir ++ [c])).
  rewrite Barename_untilByte; [reflexivity | | constructor].
  right. now exists dir, c.
Qed.

Lemma Barename_of_directory_path_witness :
  Barename (go "/home/mark" ++ ["/"%char]) = []
  /\ Barename (go "C:\Users" ++ ["\"%char]) = [].
Proof.
  destruct Barename_of_directory_path as [_ H].
  split; apply H; reflexivity.
Defined.

(** ** LongestCommonPath *)

(** X5.  With two or more paths and a raw common prefix of more than one
    byte, the result is the raw prefix without its last component: empty
    when the raw prefix holds no separator; otherwise what stands before the
    last separator of the raw prefix, or the separator itself when nothing
    stands before it.  What follows the last separator is dropped even when
    it is a whole component of every path. *)
Theorem LongestCommonPath_drops_last_component :
  forall (goos : bytes) (paths : list bytes),
    (2 <= length paths)%nat ->
    (1 < len (LongestCommonPrefix (foldCase goos paths)))%Z ->
    (without (PathSeparator goos) (LongestCommonPrefix (foldCase goos paths)) ->
     LongestCommonPath goos paths = [])
    /\ (forall a b,
          LongestCommonPrefix (foldCase goos paths)
          = a ++ PathSeparator goos :: b ->
          without (PathSeparator goos) b ->
          LongestCommonPath goos paths
          = if isEmpty a then [PathSeparator goos] else a).
Proof.
  intros goos paths Hn Hl. now apply LongestCommonPath_cut.
Qed.

Lemma LongestCommonPath_drops_last_component_witness :
  LongestCommonPath (go "linux") [go "/home/mark"; go "/home/mark/x"]
  = go "/home".
Proof.
  destruct (@LongestCommonPath_drops_last_component (go "linux")
              [go "/home/mark"; go "/home/mark/x"]) as [_ H].
  - simpl. lia.
  - vm_compute. reflexivity.
  - apply (H (go "/home") (go "mark")).
    + reflexivity.
    + repeat constructor.
Defined.

(** X6.  The result is a prefix of the raw common prefix, hence never
    longer than it, and a prefix of every path (of every lower-cased path on
    a case-insensitive target), whatever the number of paths. *)
Theorem LongestCommonPath_is_common_prefix :
  forall (goos : bytes) (paths : list bytes),
    ((2 <= length paths)%nat ->
     prefixOf (LongestCommonPath goos paths)
              (LongestCommonPrefix (foldCase goos paths)))
    /\ (forall p, In p (foldCase goos paths) ->
                  prefixOf (LongestCommonPath goos paths) p).
Proof.
  intros goos paths. split.
  - apply LongestCommonPath_prefix_of_raw.
  - intros p. apply LongestCommonPath_prefix_each.
Qed.

Lemma LongestCommonPath_is_common_prefix_witness :
  prefixOf (LongestCommonPath (go "linux") [go "/a/b"; go "/a/c"]) (go "/a/c").
Proof.
  destruct (@LongestCommonPath_is_common_prefix (go "linux")
              [go "/a/b"; go "/a/c"]) as [_ H].
  apply H. right. left. reflexivity.
Defined.

(** X7.  On a case-sensitive target, the common path of a path given twice
    or more is not that path but its parent: what stands before its last
    separator. *)
Theorem LongestCommonPath_of_equal_paths :
  forall (goos dir name : bytes) (n : nat),
    caseInsensitive goos = false ->
    dir <> [] -> without (PathSeparator goos) name ->
    LongestCommonPath goos
      (repeat (dir ++ PathSeparator goos :: name) (S (S n)))
    = dir.
Proof.
  intros goos dir name n Hc Hd Hn.
  destruct (@LongestCommonPath_cut goos
              (repeat (dir ++ PathSeparator goos :: name) (S (S n))))
    as [_ H].
  - simpl. lia.
  - unfold foldCase. rewrite Hc, LongestCommonPrefix_repeat.
    unfold len. rewrite length_app. simpl length.
    destruct dir; [contradiction | simpl length; lia].
  - rewrite (H dir name); [destruct dir; [contradiction | reflexivity] | | exact Hn].
    unfold foldCase. now rewrite Hc, LongestCommonPrefix_repeat.
Qed.

Lemma LongestCommonPath_of_equal_paths_witness :
  LongestCommonPath (go "linux") [go "/home/mark"; go "/home/mark"]
  = go "/home".
Proof.
  apply (@LongestCommonPath_of_equal_paths (go "linux") (go "/home")
           (go "mark") 0).
  - reflexivity.
  - discriminate.
  - repeat constructor.
Defined.



(** ** GetConfigFile, GetIniFile and the probes *)

(** X9.  [GetConfigFile] never returns the empty path, whatever the domain,
    the application name, the extension and the environment; the path it
    returns is one of its candidates. *)
Theorem GetConfigFile_path_not_empty :
  forall (Join : list bytes -> bytes) (env : Env) (domain appname ext : bytes),
    JoinNonEmpty Join ->
    fst (GetConfigFile Join env domain appname ext) <> []
    /\ In (fst (GetConfigFile Join env domain appname ext))
          (candidates Join env domain (appname ++ dotted ext)).
Proof.
  intros Join env domain appname ext HJ.
  destruct (candidates_nonempty env domain appname ext HJ) as [Hne Hall].
  assert (Hin : In (fst (GetConfigFile Join env domain appname ext))
                   (candidates Join env domain (appname ++ dotted ext))).
  { rewrite (GetConfigFile_find env domain appname ext HJ).
    destruct (find _ _) as [p|] eqn:E; cbn [fst].
    - now apply find_some in E.
    - now apply hd_In. }
  split; [|exact Hin].
  rewrite Forall_forall in Hall. now apply Hall.
Qed.

Lemma GetConfigFile_path_not_empty_witness :
  fst (GetConfigFile (joinWith "/") homeOnlyEnv [] [] []) <> [].
Proof.
  apply (@GetConfigFile_path_not_empty (joinWith "/") homeOnlyEnv [] [] []).
  apply joinWith_JoinNonEmpty.
Defined.

(** X10.  The flag [GetConfigFile] returns tells whether a file exists at
    the path it returns; it is [false] only when no file exists at any
    candidate. *)
Theorem GetConfigFile_found_flag :
  forall (Join : list bytes -> bytes) (env : Env) (domain appname ext : bytes),
    JoinNonEmpty Join ->
    snd (GetConfigFile Join env domain appname ext)
    = FileExists env (fst (GetConfigFile Join env domain appname ext))
    /\ (snd (GetConfigFile Join env domain appname ext) = false ->
        forall p, In p (candidates Join env domain (appname ++ dotted ext)) ->
                  FileExists env p = false).
Proof.
  intros Join env domain appname ext HJ.
  destruct (candidates_nonempty env domain appname ext HJ) as [Hne _].
  rewrite (GetConfigFile_find env domain appname ext HJ).
  destruct (find _ _) as [p|] eqn:E; cbn [fst snd].
  - apply find_some in E. destruct E as [_ E]. split; [now rewrite E|].
    discriminate.
  - pose proof (List.find_none _ _ E) as Hnone. split.
    + symmetry. apply Hnone. now apply hd_In.
    + intros _. exact Hnone.
Qed.

Lemma GetConfigFile_found_flag_witness :
  snd (GetConfigFile (joinWith "/") someEnv (go "d") (go "myapp") (go "ini"))
  = FileExists someEnv
      (fst (GetConfigFile (joinWith "/") someEnv (go "d") (go "myapp") (go "ini"))).
Proof.
  apply (@GetConfigFile_found_flag (joinWith "/") someEnv (go "d") (go "myapp")
           (go "ini")).
  apply joinWith_JoinNonEmpty.
Defined.

(** X11.  The leading dot of the extension is optional: an extension
    without it gives what the same extension with it gives (the empty
    extension gives what "." gives), and [GetIniFile] is [GetConfigFile]
    with "ini" as well as with ".ini". *)
Theorem GetConfigFile_extension_dot_optional :
  forall (Join : list bytes -> bytes) (env : Env) (domain appname ext : bytes),
    HasPrefix ext (go ".") = false ->
    GetConfigFile Join env domain appname ext
    = GetConfigFile Join env domain appname (go "." ++ ext)
    /\ GetIniFile Join env domain appname
       = GetConfigFile Join env domain appname (go "ini").
Proof.
  intros Join env domain appname ext Hp. split; [|reflexivity].
  unfold GetConfigFile.
  replace (dotted (go "." ++ ext)) with (dotted ext); [reflexivity|].
  unfold dotted. rewrite Hp. destruct ext; reflexivity.
Qed.

Lemma GetConfigFile_extension_dot_optional_witness :
  GetConfigFile (joinWith "/") someEnv (go "d") (go "app") (go "json")
  = GetConfigFile (joinWith "/") someEnv (go "d") (go "app") (go ".json").
Proof.
  apply (@GetConfigFile_extension_dot_optional (joinWith "/") someEnv
           (go "d") (go "app") (go "json")).
  reflexivity.
Defined.

(** X12.  The three probes agree: a path exists exactly when it is a file
    or a directory, never both; and for a path [os.Stat] fails on, all
    three answer [false]. *)
Theorem probes_partition :
  forall (env : Env) (path : bytes),
    ufile.PathExists env path
    = FileExists env path || ufile.IsDir env path
    /\ FileExists env path && ufile.IsDir env path = false
    /\ (forall e, Stat env path = Err e ->
          FileExists env path = false
          /\ ufile.PathExists env path = false
          /\ ufile.IsDir env path = false).
Proof.
  intros env path. unfold ufile.PathExists, FileExists, ufile.IsDir.
  destruct (Stat env path) as [[[]]|e].
  - repeat split; intros; discriminate.
  - repeat split; intros; discriminate.
  - repeat split.
Qed.

Lemma probes_partition_witness :
  FileExists dirEnv (go "/nowhere") = false
  /\ ufile.PathExists dirEnv (go "/nowhere") = false
  /\ ufile.IsDir dirEnv (go "/nowhere") = false.
Proof.
  destruct (@probes_partition dirEnv (go "/nowhere")) as (_ & _ & H).
  apply (H (PathError ENOENT)). reflexivity.
Defined.

(** ** ReadTextFile *)

(** X13.  When the file cannot be opened, or a read of it fails,
    [ReadTextFile] returns that error and no line at all, whatever was read
    before the failure. *)
Theorem ReadTextFile_error_gives_no_lines :
  forall (fs : FS) (filename : bytes),
    (forall e, os_Open fs filename = Err e ->
               ReadTextFile fs filename = ([], Some e))
    /\ (forall f, os_Open fs filename = Ok f -> tail f <> io_EOF ->
                  ReadTextFile fs filename = ([], Some (tail f)))
    /\ (forall e, snd (ReadTextFile fs filename) = Some e ->
                  fst (ReadTextFile fs filename) = []).
Proof.
  intros fs filename. unfold ReadTextFile, os_ReadFile.
  destruct (os_Open fs filename) as [f|e0].
  - split; [discriminate|]. split.
    + intros f' [= <-] Ht. destruct (tail f); try reflexivity. contradiction.
    + intros e. destruct (isEOF (Some (tail f))); [discriminate | reflexivity].
  - split; [now intros e [= <-]|]. split; [discriminate | reflexivity].
Qed.

Lemma ReadTextFile_error_gives_no_lines_witness :
  ReadTextFile (oneFile (go "f") failingFile) (go "f")
  = ([], Some (PathError EIO))
  /\ ReadTextFile (oneFile (go "f") failingFile) (go "g")
     = ([], Some (PathError ENOENT)).
Proof.
  destruct (@ReadTextFile_error_gives_no_lines (oneFile (go "f") failingFile)
              (go "f")) as (_ & H & _).
  destruct (@ReadTextFile_error_gives_no_lines (oneFile (go "f") failingFile)
              (go "g")) as (G & _ & _).
  split.
  - apply (H failingFile); [reflexivity | discriminate].
  - apply G. reflexivity.
Defined.

(** X14.  The lines [ReadTextFile] returns do not depend on how many
    newlines end the content, nor on its carriage returns: a content with
    newlines added at its end, and a content with its carriage returns
    removed, are read as the content itself. *)
Theorem ReadTextFile_ignores_trailing_newlines_and_CR :
  forall (name content : bytes) (k : nat),
    ReadTextFile (oneFile name (textFile (content ++ repeat LF k))) name
    = ReadTextFile (oneFile name (textFile content)) name
    /\ ReadTextFile (oneFile name (textFile (ReplaceAll content CR []))) name
       = ReadTextFile (oneFile name (textFile content)) name.
Proof.
  intros name content k. rewrite !ReadTextFile_textFile. split.
  - now rewrite ReplaceAll_app, ReplaceAll_repeat_LF, TrimRight_repeat_LF.
  - now rewrite ReplaceAll_idempotent.
Qed.

(** X15.  What [ReadTextFile] reads back does not depend on the target that
    wrote the file: the lines written on Windows (with "\r\n") and the same
    lines written elsewhere (with "\n") are read back as the same lines. *)
Theorem ReadTextFile_same_for_every_writer :
  forall (goos1 goos2 : bytes) (fs : FS) (filename : bytes)
         (lines : list bytes) (r : nat),
    creat fs filename = Ok r ->
    (length (written goos1 lines) <= r)%nat ->
    (length (written goos2 lines) <= r)%nat ->
    ReadTextFile (fst (WriteTextFile goos1 fs filename lines)) filename
    = ReadTextFile (fst (WriteTextFile goos2 fs filename lines)) filename.
Proof.
  intros goos1 goos2 fs filename lines r Hc H1 H2.
  destruct (WriteTextFile_ok goos1 fs filename lines Hc H1)
    as (f1 & E1 & D1 & T1).
  destruct (WriteTextFile_ok goos2 fs filename lines Hc H2)
    as (f2 & E2 & D2 & T2).
  rewrite E1, E2. cbn [fst].
  rewrite (ReadTextFile_ok _ _ (os_Open_File_Close fs filename f1) T1).
  rewrite (ReadTextFile_ok _ _ (os_Open_File_Close fs filename f2) T2).
  now rewrite D1, D2, !ReplaceAll_written.
Qed.

Lemma ReadTextFile_same_for_every_writer_witness :
  ReadTextFile (fst (WriteTextFile (go "windows") (emptyDisk 50) (go "f")
                       [go "a"; go "b"])) (go "f")
  = ReadTextFile (fst (WriteTextFile (go "linux") (emptyDisk 50) (go "f")
                         [go "a"; go "b"])) (go "f").
Proof.
  apply (@ReadTextFile_same_for_every_writer (go "windows") (go "linux")
           (emptyDisk 50) (go "f") [go "a"; go "b"] 50).
  - reflexivity.
  - vm_compute. lia.
  - vm_compute. lia.
Defined.

(** ** ReadUtf8Lines *)

(** X16.  From a file that is read without error, a loop that never breaks
    is given pairs without error only, and every line it is given holds no
    newline and ends neither with a carriage return nor with a newline. *)
Theorem ReadUtf8Lines_lines_are_stripped :
  forall (fs : FS) (filename : bytes) (f : File),
    os_Open fs filename = Ok f -> tail f = io_EOF ->
    Forall (fun p => snd p = None /\ without LF (fst p)
                     /\ TrimRight (fst p) [CR; LF] = fst p)
           (yielded fs filename).
Proof.
  intros fs filename f Ho Ht. unfold yielded, ReadUtf8Lines. rewrite Ho.
  apply (@readLoop_record_clean (S (length (data f)))); [simpl; lia | exact Ht].
Qed.

Lemma ReadUtf8Lines_lines_are_stripped_witness :
  Forall (fun p => snd p = None /\ without LF (fst p)
                   /\ TrimRight (fst p) [CR; LF] = fst p)
         (yielded (oneFile (go "f") (textFile (go "a" ++ [CR; CR; LF; LF])))
            (go "f")).
Proof.
  apply (@ReadUtf8Lines_lines_are_stripped _ (go "f")
           (textFile (go "a" ++ [CR; CR; LF; LF]))); reflexivity.
Defined.

(** X17.  A loop that breaks once it has [n] pairs (at least one) is given
    exactly the first [n] pairs of the whole iteration: nothing is yielded
    after the break, and nothing before it is changed by it. *)
Theorem ReadUtf8Lines_break_gives_first_pairs :
  forall (fs : FS) (filename : bytes) (n : nat),
    (1 <= n)%nat ->
    ReadUtf8Lines (upTo n) fs filename [] = firstn n (yielded fs filename).
Proof.
  intros fs filename n Hn. unfold yielded, ReadUtf8Lines.
  destruct (os_Open fs filename) as [f|e].
  - rewrite (@readLoop_upTo n (S (length (data f))) (bufio_NewReader f) []);
      [| simpl; lia | simpl; lia].
    simpl length. now rewrite Nat.sub_0_r.
  - rewrite upTo_fst, record_fst. destruct n; [lia|]. now destruct n.
Qed.

Lemma ReadUtf8Lines_break_gives_first_pairs_witness :
  ReadUtf8Lines (upTo 2)
    (oneFile (go "f") (textFile (go "a" ++ [LF] ++ go "b" ++ [LF] ++ go "c")))
    (go "f") []
  = [(go "a", None); (go "b", None)].
Proof.
  rewrite (@ReadUtf8Lines_break_gives_first_pairs
             (oneFile (go "f")
                (textFile (go "a" ++ [LF] ++ go "b" ++ [LF] ++ go "c")))
             (go "f") 2); [reflexivity | lia].
Defined.

(** X18.  No phantom last line: a content whose last line is not empty is
    iterated in the same way with and without a newline at its end. *)
Theorem ReadUtf8Lines_final_newline_optional :
  forall (name before partial : bytes),
    (before = [] \/ exists b, before = b ++ [LF]) ->
    partial <> [] -> without LF partial ->
    yielded (oneFile name (textFile (before ++ partial ++ [LF]))) name
    = yielded (oneFile name (textFile (before ++ partial))) name.
Proof.
  intros name before partial Hb Hne Hw.
  unfold yielded, ReadUtf8Lines, os_Open, oneFile. cbn [node].
  rewrite bytes_eqb_refl. unfold bufio_NewReader, textFile. cbn [data tail].
  apply (@readLoop_record_final_newline partial (S (length before)));
    [exact Hne | exact Hw | lia | exact Hb].
Qed.

Lemma ReadUtf8Lines_final_newline_optional_witness :
  yielded (oneFile (go "f") (textFile ((go "a" ++ [LF]) ++ go "b" ++ [LF])))
    (go "f")
  = yielded (oneFile (go "f") (textFile ((go "a" ++ [LF]) ++ go "b")))
      (go "f").
Proof.
  apply (@ReadUtf8Lines_final_newline_optional (go "f") (go "a" ++ [LF])
           (go "b")).
  - right. now exists (go "a").
  - discriminate.
  - repeat constructor.
Defined.

(** X19.  Round trip through the iterator: on any target, lines without
    newline and carriage return, written by [WriteTextFile] to a device
    with room for them, are yielded by [ReadUtf8Lines] exactly as they were
    given, each without error: no line at all is iterated as no line, and
    empty last lines are kept. *)
Theorem WriteTextFile_ReadUtf8Lines_roundtrip :
  forall (goos : bytes) (fs : FS) (filename : bytes) (lines : list bytes)
         (r : nat),
    creat fs filename = Ok r ->
    (length (written goos lines) <= r)%nat ->
    Forall plain lines ->
    snd (WriteTextFile goos fs filename lines) = None
    /\ yielded (fst (WriteTextFile goos fs filename lines)) filename
       = map (fun line => (line, None)) lines.
Proof.
  intros goos fs filename lines r Hc Hr Hp.
  destruct (WriteTextFile_ok goos fs filename lines Hc Hr) as (f & E & D & T).
  rewrite E. cbn [fst snd]. split; [reflexivity|].
  unfold yielded, ReadUtf8Lines. rewrite os_Open_File_Close.
  unfold bufio_NewReader. rewrite D, T, written_text.
  rewrite readLoop_record_terminated.
  - rewrite map_map. reflexivity.
  - apply Forall_map. eapply Forall_impl; [|exact Hp].
    intros l Hl. cbn [fst snd]. split; [exact Hl | apply isEOL_EOL].
Qed.

Lemma WriteTextFile_ReadUtf8Lines_roundtrip_witness :
  yielded (fst (WriteTextFile (go "windows") (emptyDisk 50) (go "f")
                  [go "a"; go ""; go ""])) (go "f")
  = [(go "a", None); (go "", None); (go "", None)]
  /\ yielded (fst (WriteTextFile (go "linux") (emptyDisk 50) (go "f") []))
       (go "f") = [].
Proof.
  split.
  - apply (@WriteTextFile_ReadUtf8Lines_roundtrip (go "windows") (emptyDisk 50)
             (go "f") [go "a"; go ""; go ""] 50).
    + reflexivity.
    + vm_compute. lia.
    + repeat constructor.
  - apply (@WriteTextFile_ReadUtf8Lines_roundtrip (go "linux") (emptyDisk 50)
             (go "f") [] 50).
    + reflexivity.
    + vm_compute. lia.
    + constructor.
Defined.

(** ** WriteTextFile *)

(** X20.  When the file cannot be created, [WriteTextFile] returns the
    error of [os.Create] and leaves the file system as it was.  When it is
    created on a device with room for the content, [WriteTextFile] returns
    no error and the file holds exactly every line followed by the end of
    line of the target, the last line included. *)
Theorem WriteTextFile_writes_every_line_with_eol :
  forall (goos : bytes) (fs : FS) (filename : bytes) (lines : list bytes),
    (forall e, creat fs filename = Err e ->
               WriteTextFile goos fs filename lines = (fs, Some e))
    /\ (forall r, creat fs filename = Ok r ->
                  (length (written goos lines) <= r)%nat ->
                  snd (WriteTextFile goos fs filename lines) = None
                  /\ os_ReadFile (fst (WriteTextFile goos fs filename lines))
                       filename
                     = (concat (map (fun line => line ++ EOL goos) lines),
                        None)).
Proof.
  intros goos fs filename lines. split.
  - intros e He. unfold WriteTextFile, os_Create. now rewrite He.
  - intros r Hc Hr.
    destruct (WriteTextFile_ok goos fs filename lines Hc Hr)
      as (f & E & D & T).
    rewrite E. cbn [fst snd]. split; [reflexivity|].
    unfold os_ReadFile. rewrite os_Open_File_Close, D, T. reflexivity.
Qed.

Lemma WriteTextFile_writes_every_line_with_eol_witness :
  os_ReadFile (fst (WriteTextFile (go "windows") (emptyDisk 10) (go "f")
                      [go "a"; go "b"])) (go "f")
  = (go "a" ++ [CR; LF] ++ go "b" ++ [CR; LF], None).
Proof.
  destruct (@WriteTextFile_writes_every_line_with_eol (go "windows")
              (emptyDisk 10) (go "f") [go "a"; go "b"]) as [_ H].
  destruct (H 10%nat) as [_ H2].
  - reflexivity.
  - vm_compute. lia.
  - exact H2.
Defined.

(** X21.  No rollback: whatever room the device has, after [WriteTextFile]
    the file holds the first bytes of the content to write, as many as the
    device has room for; and an error is returned only when the content
    did not fit. *)
Theorem WriteTextFile_leaves_a_prefix :
  forall (goos : bytes) (fs : FS) (filename : bytes) (lines : list bytes)
         (r : nat),
    creat fs filename = Ok r ->
    exists f,
      os_Open (fst (WriteTextFile goos fs filename lines)) filename = Ok f
      /\ data f = firstn r (written goos lines)
      /\ (snd (WriteTextFile goos fs filename lines) <> None ->
          (r < length (written goos lines))%nat).
Proof.
  intros goos fs filename lines r Hc.
  unfold WriteTextFile, os_Create. rewrite Hc.
  set (file := {| data := []; tail := io_EOF; room := r |}).
  assert (Hh : holding (bufio_NewWriter file) [] r).
  { unfold holding, accepted, capacity. cbn. repeat split. lia. }
  destruct (@writeLines_any (EOL goos) lines r _ [] Hh) as [(E & H)|(E & H)];
    destruct (writeLines (bufio_NewWriter file) (EOL goos) lines) as [b err];
    cbn [fst snd app] in *; fold (written goos lines) in H.
  - subst err. pose proof (Flush_any H) as Hf.
    destruct (Flush b) as [b' e']. cbn [fst snd] in *.
    exists (wr b'). rewrite os_Open_File_Close.
    split; [reflexivity|]. split; [exact Hf | congruence].
  - destruct err as [e|]; [|contradiction]. cbn [fst snd].
    exists (wr b). rewrite os_Open_File_Close.
    destruct H as (_ & Hl & Hp & Hr).
    split; [reflexivity|]. split; [|intros _; exact Hr].
    rewrite <- Hl. symmetry. now apply firstn_prefix_full.
Qed.

Lemma WriteTextFile_leaves_a_prefix_witness :
  exists f,
    os_Open (fst (WriteTextFile (go "linux") (emptyDisk 3) (go "f")
                    [go "ab"; go "cd"])) (go "f") = Ok f
    /\ data f = firstn 3 (written (go "linux") [go "ab"; go "cd"])
    /\ (snd (WriteTextFile (go "linux") (emptyDisk 3) (go "f")
               [go "ab"; go "cd"]) <> None ->
        (3 < length (written (go "linux") [go "ab"; go "cd"]))%nat).
Proof.
  apply (@WriteTextFile_leaves_a_prefix (go "linux") (emptyDisk 3) (go "f")
           [go "ab"; go "cd"] 3).
  reflexivity.
Defined.

(** X22.  When the lines with their ends of line amount to no more than
    the 4096 bytes of the buffer, every [WriteString] only fills the buffer
    and the one write to the file is that of [out.Flush()], whose result is
    not looked at: [WriteTextFile] returns no error once the file is
    created, whatever the device then accepts. *)
Theorem WriteTextFile_small_content_no_error :
  forall (goos : bytes) (fs : FS) (filename : bytes) (lines : list bytes)
         (r : nat),
    creat fs filename = Ok r ->
    (length (written goos lines) <= defaultBufSize)%nat ->
    snd (WriteTextFile goos fs filename lines) = None.
Proof.
  intros goos fs filename lines r Hc Hl.
  unfold WriteTextFile, os_Create. rewrite Hc.
  rewrite writeLines_buffered; [|reflexivity | exact Hl].
  destruct (Flush _) as [b e]. reflexivity.
Qed.

Lemma WriteTextFile_small_content_no_error_witness :
  snd (WriteTextFile (go "linux") (emptyDisk 1) (go "f") [go "ab"; go "cd"])
  = None.
Proof.
  apply (@WriteTextFile_small_content_no_error (go "linux") (emptyDisk 1)
           (go "f") [go "ab"; go "cd"] 1).
  - reflexivity.
  - apply Nat.leb_le. vm_compute. reflexivity.
Defined.
